(** * compress.py: batch image optimiser -- a shallow embedding and its properties

    The development follows the layout of [compress.py]:
    - the Python run-time pieces the script relies on (exceptions, [str],
      binary64 [float], [pathlib] pure paths, the Pillow image interface);
    - the configuration block and the functions of the script, in source
      order ([ensure_dirs], [strip_exif], [save_jpeg], [save_webp],
      [resize_by_width], [process_one], [main]);
    - the properties. *)

From Stdlib Require Import ZArith List String Ascii Bool Lia.
From Stdlib Require Import Floats.SpecFloat.
Import ListNotations.

Local Open Scope Z_scope.

(* ===================================================================== *)
(** * Python exceptions and fallible results *)
(* ===================================================================== *)

(** Every exception the script can meet is an instance of [Exception]
    (the class named by [except Exception as e]); it carries its class
    name and the detail printed by [{e}]. *)
Inductive exn : Type :=
| Exception (cls : string) (detail : string).

Definition ValueError := Exception "ValueError".
Definition OverflowError := Exception "OverflowError".
Definition ZeroDivisionError := Exception "ZeroDivisionError".
Definition OSError := Exception "OSError".

Inductive result (A : Type) : Type :=
| Ok (a : A)
| Raise (e : exn).
Arguments Ok {A} a.
Arguments Raise {A} e.

Definition rbind {A B} (r : result A) (k : A -> result B) : result B :=
  match r with
  | Ok a => k a
  | Raise e => Raise e
  end.

Notation "'let*' x := r 'in' k" := (rbind r (fun x => k))
  (at level 10, x name, r at level 100, k at level 200).

(* ===================================================================== *)
(** * binary64 arithmetic, as used by [target_w / float(w)] and
      [int(h * ratio)] *)
(* ===================================================================== *)

Module Float64.

Definition prec : Z := 53.
Definition emax : Z := 1024.

Definition float := spec_float.

(** [float(n)] and the implicit conversion of an [int] operand: the
    nearest binary64 value, ties to even; an [int] beyond the range
    raises. *)
Definition of_int (n : Z) : result float :=
  match binary_normalize prec emax n 0 false with
  | S754_infinity _ => Raise (OverflowError "int too large to convert to float")
  | f => Ok f
  end.

Definition is_zero (f : float) : bool :=
  match f with
  | S754_zero _ => true
  | _ => false
  end.

(** [a / b] on floats. *)
Definition truediv (a b : float) : result float :=
  if is_zero b then Raise (ZeroDivisionError "float division by zero")
  else Ok (SFdiv prec emax a b).

(** [a * b] on floats. *)
Definition mul (a b : float) : float := SFmul prec emax a b.

(** [int(x)]: truncation toward zero. *)
Definition to_int (x : float) : result Z :=
  match x with
  | S754_zero _ => Ok 0
  | S754_infinity _ => Raise (OverflowError "cannot convert float infinity to integer")
  | S754_nan => Raise (ValueError "cannot convert float NaN to integer")
  | S754_finite s m e => Ok (cond_Zopp s (Z.shiftl (Zpos m) e))
  end.

(** [round(x)]: the nearest integer, ties to the even one. *)
Definition round (x : float) : result Z :=
  match x with
  | S754_zero _ => Ok 0
  | S754_infinity _ => Raise (OverflowError "cannot convert float infinity to integer")
  | S754_nan => Raise (ValueError "cannot convert float NaN to integer")
  | S754_finite s m e =>
      Ok (cond_Zopp s
            (if 0 <=? e then Zpos m * 2 ^ e
             else
               let d := 2 ^ (- e) in
               let q := Zpos m / d in
               match Z.compare (2 * (Zpos m mod d)) d with
               | Lt => q
               | Gt => q + 1
               | Eq => if Z.even q then q else q + 1
               end))
  end.

End Float64.

(** The two arithmetic lines of [resize_by_width]:
    [ratio = target_w / float(w)] and [int(h * ratio)]. *)
Definition new_height (w h target_w : Z) : result Z :=
  let* fw := Float64.of_int w in
  let* ft := Float64.of_int target_w in
  let* ratio := Float64.truediv ft fw in
  let* fh := Float64.of_int h in
  Float64.to_int (Float64.mul fh ratio).

(* ===================================================================== *)
(** * [str] operations used by [pathlib] and by the extension test *)
(* ===================================================================== *)

Module Str.

Definition len (s : string) : Z := Z.of_nat (String.length s).

Definition lower_char (c : ascii) : ascii :=
  let n := nat_of_ascii c in
  if ((65 <=? n) && (n <=? 90))%nat then ascii_of_nat (n + 32) else c.

(** [s.lower()], on the ASCII letters (no other character lower-cases to
    a letter of the accepted extensions). *)
Fixpoint lower (s : string) : string :=
  match s with
  | EmptyString => EmptyString
  | String c s' => String (lower_char c) (lower s')
  end.

(** [s.rfind(c)]: the highest index of [c] in [s], [-1] when absent. *)
Fixpoint rfind (s : string) (c : ascii) : Z :=
  match s with
  | EmptyString => -1
  | String a s' =>
      let r := rfind s' c in
      if 0 <=? r then r + 1
      else if Ascii.eqb a c then 0 else -1
  end.

Fixpoint take (n : nat) (s : string) : string :=
  match n, s with
  | S n', String c s' => String c (take n' s')
  | _, _ => EmptyString
  end.

Fixpoint drop (n : nat) (s : string) : string :=
  match n, s with
  | S n', String _ s' => drop n' s'
  | _, _ => s
  end.

(** A slice bound is normalised as Python does: a negative index counts
    from the end, and the result is clamped to [0, len s]. *)
Definition clamp (s : string) (i : Z) : nat :=
  let i' := if i <? 0 then i + len s else i in
  Z.to_nat (Z.min (Z.max i' 0) (len s)).

(** [s[i:]] *)
Definition slice_from (s : string) (i : Z) : string := drop (clamp s i) s.

(** [s[:j]] *)
Definition slice_to (s : string) (j : Z) : string := take (clamp s j) s.

Fixpoint contains (c : ascii) (s : string) : bool :=
  match s with
  | EmptyString => false
  | String a s' => Ascii.eqb a c || contains c s'
  end.

Definition startswith (c : ascii) (s : string) : bool :=
  match s with
  | String a _ => Ascii.eqb a c
  | EmptyString => false
  end.

Definition is_empty (s : string) : bool :=
  match s with
  | EmptyString => true
  | _ => false
  end.

End Str.

(* ===================================================================== *)
(** * [pathlib]: pure POSIX paths *)
(* ===================================================================== *)

Module PathLib.

(** A path is its anchor (the empty string, or the root for an absolute
    path) and the list of its components. *)
Record Path : Type := mkPath { anchor : string; parts : list string }.

(** A relative path given by its components, as [Path("a/b")]. *)
Definition rel_path (l : list string) : Path := mkPath "" l.

(** [p.name] *)
Definition name (p : Path) : string := last (parts p) ""%string.

(** [p.suffix], as in CPython up to 3.13:
    [i = name.rfind('.')]; [name[i:]] if [0 < i < len(name) - 1], else
    the empty string. *)
Definition suffix (p : Path) : string :=
  let nm := name p in
  let i := Str.rfind nm "."%char in
  if (0 <? i) && (i <? Str.len nm - 1) then Str.slice_from nm i
  else ""%string.

(** [p.stem]: [name[:i]] under the same test, else the whole name. *)
Definition stem (p : Path) : string :=
  let nm := name p in
  let i := Str.rfind nm "."%char in
  if (0 <? i) && (i <? Str.len nm - 1) then Str.slice_to nm i
  else nm.

Definition invalid_suffix (sfx : string) : bool :=
  Str.contains "/"%char sfx
  || (negb (Str.is_empty sfx) && negb (Str.startswith "."%char sfx))
  || String.eqb sfx ".".

(** [p.with_suffix(sfx)] *)
Definition with_suffix (p : Path) (sfx : string) : result Path :=
  if invalid_suffix sfx then Raise (ValueError "Invalid suffix")
  else
    let nm := name p in
    if Str.is_empty nm then Raise (ValueError "path has an empty name")
    else
      let old_suffix := suffix p in
      let nm' :=
        if Str.is_empty old_suffix then (nm ++ sfx)%string
        else (Str.slice_to nm (- Str.len old_suffix) ++ sfx)%string in
      Ok (mkPath (anchor p) (removelast (parts p) ++ [nm'])).

(** [p.parent] *)
Definition parent (p : Path) : Path :=
  mkPath (anchor p) (removelast (parts p)).

(** [a / b] *)
Definition truediv (a b : Path) : Path :=
  if Str.is_empty (anchor b) then mkPath (anchor a) (parts a ++ parts b)
  else b.

Fixpoint strip_prefix (pre l : list string) : option (list string) :=
  match pre, l with
  | [], _ => Some l
  | x :: pre', y :: l' => if String.eqb x y then strip_prefix pre' l' else None
  | _ :: _, [] => None
  end.

(** [p.relative_to(other)] *)
Definition relative_to (p other : Path) : result Path :=
  if String.eqb (anchor p) (anchor other) then
    match strip_prefix (parts other) (parts p) with
    | Some rest => Ok (rel_path rest)
    | None => Raise (ValueError "path is not in the subpath of other")
    end
  else Raise (ValueError "path is not in the subpath of other").

End PathLib.
Import PathLib.

(* ===================================================================== *)
(** * The Pillow interface used by the script *)
(* ===================================================================== *)

Module PIL.

Inductive Mode : Type :=
| M1 | L | P | RGB | RGBA | CMYK | YCbCr | LAB | HSV | I | F
| LA | PA | RGBX | RGBa | La.

Definition Mode_eqb (a b : Mode) : bool :=
  match a, b with
  | M1, M1 | L, L | P, P | RGB, RGB | RGBA, RGBA | CMYK, CMYK
  | YCbCr, YCbCr | LAB, LAB | HSV, HSV | I, I | F, F
  | LA, LA | PA, PA | RGBX, RGBX | RGBa, RGBa | La, La => true
  | _, _ => false
  end.

(** Modes that carry an alpha band. *)
Definition has_alpha (m : Mode) : bool :=
  match m with
  | RGBA | LA | PA | RGBa | La => true
  | _ => false
  end.

Inductive Filter : Type := NEAREST | BILINEAR | BICUBIC | LANCZOS.

(** Pixel values are not interpreted: a raster is either the samples
    decoded from a file or the result of a library operation on another
    raster. *)
Inductive Pixels : Type :=
| Samples (id : nat)
| Zeros
| Converted (to : Mode) (p : Pixels)
| Resampled (f : Filter) (size : Z * Z) (p : Pixels).

(** [info] is the dictionary of what the container carried besides the
    pixels (EXIF block, ICC profile, text chunks, [transparency], ...). *)
Record Image : Type := mkImage {
  mode : Mode;
  size : Z * Z;
  info : list (string * string);
  px : Pixels
}.

Definition width (img : Image) : Z := fst (size img).
Definition height (img : Image) : Z := snd (size img).

Definition has_key (k : string) (d : list (string * string)) : bool :=
  existsb (fun kv => String.eqb (fst kv) k) d.

(** An image has transparency when its mode has an alpha band or its
    [info] has a [transparency] entry (palette or colour-key PNG). *)
Definition has_transparency (img : Image) : bool :=
  has_alpha (mode img) || has_key "transparency" (info img).

(** [img.convert(m)]: same size, new mode. The [info] dictionary is
    carried over (Pillow may rewrite its [transparency] entry; nothing
    below depends on it). *)
Definition convert (img : Image) (m : Mode) : Image :=
  mkImage m (size img) (info img) (Converted m (px img)).

(** [list(img.getdata())] *)
Definition getdata (img : Image) : Pixels := px img.

(** [Image.new(mode, size)]: a fresh image, zero-filled, empty [info]. *)
Definition new (m : Mode) (sz : Z * Z) : result Image :=
  if (fst sz <? 0) || (snd sz <? 0)
  then Raise (ValueError "Width and height must be >= 0")
  else Ok (mkImage m sz [] Zeros).

(** [out.putdata(data)] *)
Definition putdata (out : Image) (data : Pixels) : Image :=
  mkImage (mode out) (size out) (info out) data.

(** [img.resize(size, resample)]: a copy when the size is unchanged,
    otherwise a resampled image of exactly the requested size; a
    requested side below 1 is refused. *)
Definition resize (img : Image) (sz : Z * Z) (resample : Filter) : result Image :=
  if (fst sz =? width img) && (snd sz =? height img) then Ok img
  else if (fst sz <? 1) || (snd sz <? 1)
  then Raise (ValueError "height and width must be > 0")
  else Ok (mkImage (mode img) sz (info img) (Resampled resample sz (px img))).

Inductive Format : Type := JPEG | WEBP.

(** The keyword arguments of [img.save]. *)
Record SaveParams : Type := mkSaveParams {
  format : Format;
  quality : Z;
  optimize : option bool;
  progressive : option bool;
  subsampling : option string;
  method : option Z
}.

End PIL.
Import PIL.

(* ===================================================================== *)
(** * Configuration block *)
(* ===================================================================== *)

Record Config : Type := mkConfig {
  SRC_DIR : Path;
  OUT_DIR : Path;
  MAX_WIDTH_HI : Z;
  THUMB_WIDTH : Z;
  JPEG_QUALITY : Z;
  WEBP_QUALITY : Z;
  MAKE_WEBP : bool;
  STRIP_EXIF : bool
}.

(** [THUMB_DIR = OUT_DIR / "thumbs"] *)
Definition THUMB_DIR (cfg : Config) : Path :=
  truediv (OUT_DIR cfg) (rel_path ["thumbs"%string]).

(** The values written in the script. *)
Definition default_config : Config :=
  mkConfig (rel_path ["images"%string]) (rel_path ["images_optimized"%string])
           1600 400 85 80 true true.

Definition SUPPORTED : list string := [".jpg"; ".jpeg"; ".png"]%string.

(** [s in SUPPORTED] *)
Definition in_supported (s : string) : bool := existsb (String.eqb s) SUPPORTED.

(* ===================================================================== *)
(** * The world outside the script, and what the script does to it *)
(* ===================================================================== *)

(** What the file system and the codecs answer. A [None] from [mkdir] or
    [save] is a normal return. The answers are those of one run: the
    script reads under the input root and writes under the output root,
    so what it writes does not change what it reads. *)
Record Env : Type := mkEnv {
  st_size : Path -> result Z;
  image_open : Path -> result Image;
  mkdir : Path -> option exn;
  save : Image -> Path -> SaveParams -> option exn;
  os_walk : Path -> list (Path * list string * list string)
}.

Inductive Notice : Type :=
| SkippingEmpty (src : Path)
| Done (src out_hi : Path) (webp : bool)
| ErrorProcessing (src : Path) (e : exn).

(** The observable effects, in the order they happen: a directory made,
    a [save] that returned normally, a line printed. *)
Inductive Event : Type :=
| MadeDir (p : Path)
| Wrote (p : Path) (params : SaveParams) (img : Image)
| Printed (n : Notice).

(** A statement of the script: the effects it performed, and whether it
    ended normally or by an exception. *)
Definition M (A : Type) : Type := (list Event * result A)%type.

Definition ret {A} (a : A) : M A := ([], Ok a).

Definition bind {A B} (m : M A) (k : A -> M B) : M B :=
  match m with
  | (l, Ok a) => let '(l', r) := k a in (l ++ l', r)
  | (l, Raise e) => (l, Raise e)
  end.

Definition lift {A} (r : result A) : M A := ([], r).

Definition emit (ev : Event) : M unit := ([ev], Ok tt).

(** [try: body except Exception as e: handler(e)] *)
Definition try_except {A} (body : M A) (handler : exn -> M A) : M A :=
  match body with
  | (l, Ok a) => (l, Ok a)
  | (l, Raise e) => let '(l', r) := handler e in (l ++ l', r)
  end.

Notation "x <- m ;; k" := (bind m (fun x => k))
  (at level 61, m at next level, right associativity).
Notation "m ;;; k" := (bind m (fun _ => k))
  (at level 61, right associativity).

Fixpoint for_each {A} (l : list A) (body : A -> M unit) : M unit :=
  match l with
  | [] => ret tt
  | x :: l' => body x ;;; for_each l' body
  end.

Definition print (n : Notice) : M unit := emit (Printed n).

Definition do_mkdir (env : Env) (p : Path) : M unit :=
  match mkdir env p with
  | None => emit (MadeDir p)
  | Some e => lift (Raise e)
  end.

Definition do_save (env : Env) (img : Image) (p : Path) (params : SaveParams) : M unit :=
  match save env img p params with
  | None => emit (Wrote p params img)
  | Some e => lift (Raise e)
  end.

(* ===================================================================== *)
(** * The script *)
(* ===================================================================== *)

Definition ensure_dirs (cfg : Config) (env : Env) : M unit :=
  do_mkdir env (OUT_DIR cfg) ;;;
  do_mkdir env (THUMB_DIR cfg).

(** [img.mode in ("RGB", "RGBA")] *)
Definition rgb_or_rgba (m : Mode) : bool := Mode_eqb m RGB || Mode_eqb m RGBA.

Definition strip_exif (img : Image) : result Image :=
  let img := if negb (rgb_or_rgba (mode img)) then convert img RGB else img in
  let data := getdata img in
  let* out := new (mode img) (size img) in
  Ok (putdata out data).

(** [params = dict(format="JPEG", quality=quality, optimize=True,
    progressive=True, subsampling="4:2:0")] *)
Definition jpeg_params (quality : Z) : SaveParams :=
  mkSaveParams JPEG quality (Some true) (Some true) (Some "4:2:0"%string) None.

Definition save_jpeg (env : Env) (img : Image) (path : Path) (quality : Z) : M unit :=
  do_save env img path (jpeg_params quality).

(** [format="WEBP", quality=quality, method=6] *)
Definition webp_params (quality : Z) : SaveParams :=
  mkSaveParams WEBP quality None None None (Some 6).

Definition save_webp (env : Env) (img : Image) (path : Path) (quality : Z) : M unit :=
  do_save env img path (webp_params quality).

Definition resize_by_width (img : Image) (target_w : Z) : result Image :=
  let '(w, h) := size img in
  if w <=? target_w then Ok img
  else
    let* nh := new_height w h target_w in
    resize img (target_w, nh) LANCZOS.

(** Lines 62-64: where the three artifacts of a source go, from its path
    [rel] relative to the input root. *)
Definition out_hi (cfg : Config) (rel : Path) : result Path :=
  let* r := with_suffix rel ".jpg" in Ok (truediv (OUT_DIR cfg) r).

Definition out_webp (cfg : Config) (rel : Path) : result Path :=
  let* r := with_suffix rel ".webp" in Ok (truediv (OUT_DIR cfg) r).

Definition out_thumb (cfg : Config) (rel : Path) : result Path :=
  let* r := with_suffix rel ".jpg" in Ok (truediv (THUMB_DIR cfg) r).

(** Lines 73-77: normalise the mode and optionally strip the metadata. *)
Definition normalised (cfg : Config) (img : Image) : result Image :=
  if STRIP_EXIF cfg then strip_exif img
  else if negb (rgb_or_rgba (mode img)) then Ok (convert img RGB)
  else Ok img.

(** The body of the [try] block of [process_one]. *)
Definition process_one_body (cfg : Config) (env : Env) (src : Path) : M unit :=
  if negb (in_supported (Str.lower (suffix src))) then ret tt
  else
    sz <- lift (st_size env src) ;;
    if sz =? 0 then print (SkippingEmpty src)
    else
      rel <- lift (relative_to src (SRC_DIR cfg)) ;;
      out_hi <- lift (out_hi cfg rel) ;;
      out_webp <- lift (out_webp cfg rel) ;;
      out_thumb <- lift (out_thumb cfg rel) ;;
      do_mkdir env (parent out_hi) ;;;
      do_mkdir env (parent out_thumb) ;;;
      img <- lift (image_open env src) ;;
      img <- lift (normalised cfg img) ;;
      hi <- lift (resize_by_width img (MAX_WIDTH_HI cfg)) ;;
      save_jpeg env hi out_hi (JPEG_QUALITY cfg) ;;;
      thumb <- lift (resize_by_width img (THUMB_WIDTH cfg)) ;;
      save_jpeg env thumb out_thumb 70 ;;;
      (if MAKE_WEBP cfg then save_webp env hi out_webp (WEBP_QUALITY cfg) else ret tt) ;;;
      print (Done src out_hi (MAKE_WEBP cfg)).

Definition process_one (cfg : Config) (env : Env) (src : Path) : M unit :=
  try_except (process_one_body cfg env src)
             (fun e => print (ErrorProcessing src e)).

Definition main (cfg : Config) (env : Env) : M unit :=
  ensure_dirs cfg env ;;;
  for_each (os_walk env (SRC_DIR cfg)) (fun '(root, _, files) =>
    for_each files (fun f =>
      let p := truediv root (rel_path [f]) in
      process_one cfg env p)).

(* ===================================================================== *)
(** * Vocabulary of the properties *)
(* ===================================================================== *)

(** The artifact kinds of the output set, and the path of each. *)
Inductive Artifact : Type := HiRes | AltFormat | Thumbnail.

Definition output_path (cfg : Config) (kind : Artifact) (rel : Path) : result Path :=
  match kind with
  | HiRes => out_hi cfg rel
  | AltFormat => out_webp cfg rel
  | Thumbnail => out_thumb cfg rel
  end.

Definition subdir_of (kind : Artifact) : list string :=
  match kind with
  | Thumbnail => ["thumbs"%string]
  | _ => []
  end.

Definition extension_of (kind : Artifact) : string :=
  match kind with
  | AltFormat => ".webp"
  | _ => ".jpg"
  end.

(** Two relative paths in the same directory with the same stem: they
    differ in the extension at most. *)
Definition same_but_suffix (a b : Path) : Prop :=
  removelast (parts a) = removelast (parts b) /\ stem a = stem b.

(** [b] is [thumbs/a], up to the extension. *)
Definition under_thumbs (a b : Path) : Prop :=
  removelast (parts b) = "thumbs"%string :: removelast (parts a) /\ stem a = stem b.

(** An event that writes an alternate-format file. *)
Definition is_webp_write (ev : Event) : bool :=
  match ev with
  | Wrote _ params _ => match format params with WEBP => true | JPEG => false end
  | _ => false
  end.

(** The paths [main] hands to [process_one], in order. *)
Definition walked_files (cfg : Config) (env : Env) : list Path :=
  flat_map (fun '(root, _, files) =>
              map (fun f => truediv root (rel_path [f])) files)
           (os_walk env (SRC_DIR cfg)).

(** The last character of a string. *)
Fixpoint last_char (s : string) : option ascii :=
  match s with
  | EmptyString => None
  | String c EmptyString => Some c
  | String _ s' => last_char s'
  end.

(** The height as the specification words it:
    [round(current-height * ratio)], to the nearest integer. *)
Definition rounded_height (w h target_w : Z) : result Z :=
  let* fw := Float64.of_int w in
  let* ft := Float64.of_int target_w in
  let* ratio := Float64.truediv ft fw in
  let* fh := Float64.of_int h in
  Float64.round (Float64.mul fh ratio).

(* ===================================================================== *)
(** * A sample input tree *)
(* ===================================================================== *)

Definition cat_image : Image :=
  mkImage RGB (1200, 800) [("exif", "Orientation=6")]%string (Samples 0).
Definition wide_image : Image :=
  mkImage RGB (3000, 1000) [] (Samples 1).
Definition logo_image : Image :=
  mkImage LA (64, 64) [] (Samples 2).

Definition images (l : list string) : Path := rel_path ("images"%string :: l).

(** A small input tree: two good pictures in sub-directories, an empty
    file, a file of another type, a truncated JPEG and a grey-with-alpha
    PNG. Every directory can be made and every image can be saved. *)
Definition sample_env : Env :=
  mkEnv
    (fun p => if String.eqb (name p) "empty.jpg" then Ok 0 else Ok 4096)
    (fun p =>
       if String.eqb (name p) "cat.png" then Ok cat_image
       else if String.eqb (name p) "wide.jpg" then Ok wide_image
       else if String.eqb (name p) "logo.png" then Ok logo_image
       else Raise (OSError "image file is truncated"))
    (fun _ => None)
    (fun _ _ _ => None)
    (fun root =>
       [(root, ["a"; "b"], ["empty.jpg"; "notes.gif"; "corrupt.jpg"; "logo.png"]);
        (truediv root (rel_path ["a"]), [], ["cat.png"]);
        (truediv root (rel_path ["b"]), [], ["wide.jpg"])]%string).

(** The sample tree on a disk where nothing can be written under a
    [thumbs] directory. *)
Definition thumbs_readonly_env : Env :=
  mkEnv (st_size sample_env) (image_open sample_env) (mkdir sample_env)
        (fun _ p _ =>
           if existsb (String.eqb "thumbs") (parts p)
           then Some (OSError "Read-only file system") else None)
        (os_walk sample_env).

(* ===================================================================== *)
(** * Vocabulary of the further properties *)
(* ===================================================================== *)

(** The extension test of [process_one]. *)
Definition supported (src : Path) : bool := in_supported (Str.lower (suffix src)).

Definition is_notice (ev : Event) : bool :=
  match ev with
  | Printed _ => true
  | _ => false
  end.

(** The number of lines a log prints. *)
Definition count_notices (log : list Event) : nat :=
  List.length (filter is_notice log).

Definition is_write (ev : Event) : bool :=
  match ev with
  | Wrote _ _ _ => true
  | _ => false
  end.

(** The path an effect touches on disk. *)
Definition touched (ev : Event) : option Path :=
  match ev with
  | MadeDir p => Some p
  | Wrote p _ _ => Some p
  | Printed _ => None
  end.

(** [p] is [root] or lies below it. *)
Definition is_under (root p : Path) : Prop :=
  anchor p = anchor root /\ exists rest, parts p = parts root ++ rest.

(** Two images with the same mode, size and pixel values: they differ
    in their metadata at most. *)
Definition same_pixels (a b : Image) : Prop :=
  mode a = mode b /\ size a = size b /\ px a = px b.

(** The configuration with the metadata switch set to [b]. *)
Definition with_strip_exif (cfg : Config) (b : bool) : Config :=
  mkConfig (SRC_DIR cfg) (OUT_DIR cfg) (MAX_WIDTH_HI cfg) (THUMB_WIDTH cfg)
           (JPEG_QUALITY cfg) (WEBP_QUALITY cfg) (MAKE_WEBP cfg) b.

(** The sample tree with two thin strips in place of the pictures: a
    1200 by 2 banner and a 2000 by 1 line. *)
Definition banner_image : Image := mkImage RGB (1200, 2) [] (Samples 4).
Definition line_image : Image := mkImage RGB (2000, 1) [] (Samples 5).

Definition strips_env : Env :=
  mkEnv (st_size sample_env)
        (fun p =>
           if String.eqb (name p) "banner.png" then Ok banner_image
           else if String.eqb (name p) "line.png" then Ok line_image
           else image_open sample_env p)
        (mkdir sample_env) (save sample_env)
        (fun root => [(root, [], ["banner.png"; "line.png"]%string)]).

(** The sample tree on a disk where no directory can be made. *)
Definition no_disk_env : Env :=
  mkEnv (st_size sample_env) (image_open sample_env)
        (fun _ => Some (OSError "Permission denied"))
        (save sample_env) (os_walk sample_env).


(* ===================================================================== *)
(** * Properties *)
(* ===================================================================== *)

(** ** The effect monad *)

Lemma bind_lift_ok {A B} (a : A) (k : A -> M B) : bind (lift (Ok a)) k = k a.
Proof. unfold bind, lift. destruct (k a); reflexivity. Qed.

Lemma bind_lift_raise {A B} (e : exn) (k : A -> M B) :
  bind (lift (Raise e)) k = ([], Raise e).
Proof. reflexivity. Qed.

Lemma bind_emit {B} (ev : Event) (k : unit -> M B) :
  bind (emit ev) k = (ev :: fst (k tt), snd (k tt)).
Proof. unfold bind, emit. destruct (k tt); reflexivity. Qed.

Lemma bind_ret {A B} (a : A) (k : A -> M B) : bind (ret a) k = k a.
Proof. unfold bind, ret. destruct (k a); reflexivity. Qed.

Lemma try_except_ok {A} (l : list Event) (a : A) h :
  try_except (l, Ok a) h = (l, Ok a).
Proof. reflexivity. Qed.

(** ** [resize_by_width] *)

Lemma resize_by_width_narrow (img : Image) (t : Z) :
  width img <= t -> resize_by_width img t = Ok img.
Proof.
  unfold resize_by_width, width. destruct (size img) as [w h]; simpl.
  intros H. apply Z.leb_le in H. now rewrite H.
Qed.

Lemma resize_by_width_wide (img r : Image) (t : Z) :
  t < width img -> resize_by_width img t = Ok r ->
  exists nh, new_height (width img) (height img) t = Ok nh
             /\ 1 <= t /\ 1 <= nh
             /\ r = mkImage (mode img) (t, nh) (info img)
                            (Resampled LANCZOS (t, nh) (px img)).
Proof.
  unfold resize_by_width, width, height.
  destruct (size img) as [w h] eqn:Hsz; simpl. intros Hlt.
  destruct (Z.leb_spec w t); [lia|].
  destruct (new_height w h t) as [nh|e]; simpl; [|discriminate].
  unfold resize, width, height. rewrite Hsz. simpl.
  destruct (Z.eqb_spec t w); [lia|]. simpl.
  destruct (Z.ltb_spec t 1); simpl; [discriminate|].
  destruct (Z.ltb_spec nh 1); simpl; [discriminate|].
  intros Heq; inversion Heq; subst. exists nh. repeat split; auto.
Qed.

Lemma resize_by_width_le (img r : Image) (t : Z) :
  resize_by_width img t = Ok r ->
  width r <= t /\ (width img <= t -> r = img) /\ (t < width img -> width r = t).
Proof.
  intros H. destruct (Z.le_gt_cases (width img) t) as [Hle|Hgt].
  - rewrite (resize_by_width_narrow _ _ Hle) in H. inversion H; subst.
    repeat split; auto; lia.
  - destruct (resize_by_width_wide _ _ _ Hgt H) as (nh & _ & _ & _ & ->).
    unfold width; simpl. repeat split; auto; try lia.
    intros Hc. unfold width in *. lia.
Qed.

(** ** [process_one]: what a write in its log tells *)

Ltac break_match :=
  match goal with
  | H : context [match ?x with _ => _ end] |- _ =>
      lazymatch x with
      | context [match _ with _ => _ end] => fail
      | _ => destruct x eqn:?
      end
  | |- context [match ?x with _ => _ end] =>
      lazymatch x with
      | context [match _ with _ => _ end] => fail
      | _ => destruct x eqn:?
      end
  end.

Ltac unfold_script :=
  unfold process_one, try_except, process_one_body, save_jpeg, save_webp,
    do_save, do_mkdir, print, bind, lift, emit, ret in *.

Lemma process_one_wrote cfg env src p params out :
  In (Wrote p params out) (fst (process_one cfg env src)) ->
  exists rel p_hi p_webp p_thumb img0 img hi,
    relative_to src (SRC_DIR cfg) = Ok rel
    /\ out_hi cfg rel = Ok p_hi
    /\ out_webp cfg rel = Ok p_webp
    /\ out_thumb cfg rel = Ok p_thumb
    /\ image_open env src = Ok img0
    /\ normalised cfg img0 = Ok img
    /\ resize_by_width img (MAX_WIDTH_HI cfg) = Ok hi
    /\ In (Wrote p_hi (jpeg_params (JPEG_QUALITY cfg)) hi)
          (fst (process_one cfg env src))
    /\ ((p = p_hi /\ params = jpeg_params (JPEG_QUALITY cfg) /\ out = hi)
        \/ (p = p_thumb /\ params = jpeg_params 70
            /\ resize_by_width img (THUMB_WIDTH cfg) = Ok out)
        \/ (p = p_webp /\ params = webp_params (WEBP_QUALITY cfg)
            /\ out = hi /\ MAKE_WEBP cfg = true)).
Proof.
  unfold_script.
  repeat (cbn in *; break_match); cbn in *; intros H.
  all: repeat match goal with
         | H : _ \/ _ |- _ => destruct H
         | H : False |- _ => destruct H
         | H : In _ _ |- _ => cbn in H
         | H : Wrote _ _ _ = Wrote _ _ _ |- _ => inversion H; subst; clear H
         | H : _ = _ |- _ => discriminate H
         end.
  all: do 7 eexists; repeat split; try reflexivity; eauto 10.
Qed.

(** ** Paths *)

Lemma removelast_app_length {A} (l : list A) (x : A) :
  l <> [] -> List.length (removelast l ++ [x]) = List.length l.
Proof.
  intros Hl. destruct (exists_last Hl) as (l' & a & ->).
  rewrite removelast_last, !length_app. reflexivity.
Qed.

Lemma with_suffix_shape (p r : Path) (sfx : string) :
  with_suffix p sfx = Ok r ->
  anchor r = anchor p
  /\ List.length (parts r) = List.length (parts p)
  /\ removelast (parts r) = removelast (parts p)
  /\ parts p <> [].
Proof.
  unfold with_suffix.
  destruct (invalid_suffix sfx); [discriminate|].
  destruct (Str.is_empty (name p)) eqn:Hn; [discriminate|].
  intros H; inversion H; subst; clear H; simpl.
  assert (Hne : parts p <> []).
  { intros Hnil. unfold name in Hn. rewrite Hnil in Hn. discriminate. }
  repeat split; auto.
  - now apply removelast_app_length.
  - now rewrite removelast_last.
Qed.

Lemma relative_to_anchor (p other rel : Path) :
  relative_to p other = Ok rel -> anchor rel = ""%string.
Proof.
  unfold relative_to. destruct (String.eqb _ _); [|discriminate].
  destruct (strip_prefix _ _); [|discriminate].
  intros H; inversion H; reflexivity.
Qed.

Lemma parts_truediv_rel (a b : Path) :
  anchor b = ""%string -> truediv a b = mkPath (anchor a) (parts a ++ parts b).
Proof. unfold truediv. intros ->. reflexivity. Qed.

Lemma parts_THUMB_DIR cfg :
  THUMB_DIR cfg = mkPath (anchor (OUT_DIR cfg)) (parts (OUT_DIR cfg) ++ ["thumbs"%string]).
Proof. reflexivity. Qed.

(** Within one source, the thumbnail never lands on the hi-res or the
    alternate-format path: it sits one directory deeper. *)
Lemma thumb_path_apart cfg (rel a b : Path) (sfx : string) :
  anchor rel = ""%string ->
  (let* r := with_suffix rel sfx in Ok (truediv (OUT_DIR cfg) r)) = Ok a ->
  out_thumb cfg rel = Ok b ->
  a <> b.
Proof.
  unfold out_thumb. intros Hrel Ha Hb.
  destruct (with_suffix rel sfx) as [r|] eqn:Hr; [|discriminate].
  destruct (with_suffix rel ".jpg") as [r'|] eqn:Hr'; [|discriminate].
  simpl in *. inversion Ha; inversion Hb; subst; clear Ha Hb.
  destruct (with_suffix_shape _ _ _ Hr) as (Ha1 & Hl1 & _).
  destruct (with_suffix_shape _ _ _ Hr') as (Ha2 & Hl2 & _).
  rewrite parts_truediv_rel by congruence.
  rewrite parts_truediv_rel by congruence.
  rewrite parts_THUMB_DIR. simpl. intros Heq. inversion Heq as [Hp].
  apply (f_equal (@List.length string)) in Hp.
  rewrite !length_app in Hp. simpl in Hp. lia.
Qed.

(** ** Mode normalisation keeps the pixel dimensions *)

Lemma strip_exif_ok (img : Image) :
  0 <= width img -> 0 <= height img ->
  strip_exif img =
    Ok (mkImage (if Mode_eqb (mode img) RGBA then RGBA else RGB)
                (size img) []
                (if rgb_or_rgba (mode img) then px img
                 else Converted RGB (px img))).
Proof.
  unfold strip_exif, new, width, height. intros Hw Hh.
  destruct (rgb_or_rgba (mode img)) eqn:Hm; simpl.
  - destruct (Z.ltb_spec (fst (size img)) 0); [lia|].
    destruct (Z.ltb_spec (snd (size img)) 0); [lia|]. simpl.
    unfold putdata, getdata; simpl. f_equal. f_equal.
    destruct (mode img); simpl in *; try discriminate; reflexivity.
  - destruct (Z.ltb_spec (fst (size img)) 0); [lia|].
    destruct (Z.ltb_spec (snd (size img)) 0); [lia|]. simpl.
    unfold putdata, getdata; simpl. f_equal. f_equal.
    destruct (mode img); simpl in *; try discriminate; reflexivity.
Qed.

Lemma strip_exif_size (img r : Image) : strip_exif img = Ok r -> size r = size img.
Proof.
  unfold strip_exif, new.
  destruct (rgb_or_rgba (mode img)); simpl;
    destruct (_ || _); simpl; try discriminate;
    intros H; inversion H; reflexivity.
Qed.

Lemma normalised_size cfg (img r : Image) :
  normalised cfg img = Ok r -> size r = size img.
Proof.
  unfold normalised. destruct (STRIP_EXIF cfg).
  - apply strip_exif_size.
  - destruct (negb _); intros H; inversion H; reflexivity.
Qed.

(** C1. The width-capped resize returns the image itself when it is not
    wider than the target (no upscaling). Consequently, with the
    script's configuration, whatever image is written to the hi-res path
    of a source is at most 1600 wide and as wide as the decoded source
    when that is at most 1600; whatever is written to its thumbnail path
    is at most 400 wide, under the same rule. *)
Theorem width_caps :
  (forall img t, width img <= t -> resize_by_width img t = Ok img)
  /\ (forall env src rel img0 p params out,
        relative_to src (SRC_DIR default_config) = Ok rel ->
        image_open env src = Ok img0 ->
        In (Wrote p params out) (fst (process_one default_config env src)) ->
        (out_hi default_config rel = Ok p ->
           width out <= 1600 /\ (width img0 <= 1600 -> width out = width img0))
        /\ (out_thumb default_config rel = Ok p ->
           width out <= 400 /\ (width img0 <= 400 -> width out = width img0))).
Proof.
  split; [exact resize_by_width_narrow|].
  intros env src rel img0 p params out Hrel Hopen Hin.
  destruct (process_one_wrote _ _ _ _ _ _ Hin)
    as (rel' & p_hi & p_webp & p_thumb & img0' & img & hi
        & Hrel' & Hhi & Hwebp & Hthumb & Hopen' & Hnorm & Hres & _ & Hcase).
  rewrite Hrel in Hrel'; inversion Hrel'; subst rel'; clear Hrel'.
  rewrite Hopen in Hopen'; inversion Hopen'; subst img0'; clear Hopen'.
  pose proof (relative_to_anchor _ _ _ Hrel) as Hanch.
  pose proof (normalised_size _ _ _ Hnorm) as Hsz.
  assert (Hw : width img = width img0) by (unfold width; now rewrite Hsz).
  assert (Hap1 : p_hi <> p_thumb) by (eapply thumb_path_apart; eauto).
  assert (Hap2 : p_webp <> p_thumb) by (eapply thumb_path_apart; eauto).
  split; intros Hp.
  - (* the hi-res path *)
    rewrite Hp in Hhi. inversion Hhi; subst p_hi; clear Hhi.
    assert (Hout : out = hi).
    { destruct Hcase as [(_ & _ & ->)|[(Hpt & _)|(_ & _ & -> & _)]]; auto.
      congruence. }
    subst out. destruct (resize_by_width_le _ _ _ Hres) as (Hle & Hsame & _).
    simpl in *. split; [exact Hle|].
    intros Hn. rewrite <- Hw in Hn. now rewrite (Hsame Hn).
  - (* the thumbnail path *)
    rewrite Hp in Hthumb. inversion Hthumb; subst p_thumb; clear Hthumb.
    destruct Hcase as [(Hpt & _)|[(_ & _ & Hres')|(Hpt & _)]]; try congruence.
    destruct (resize_by_width_le _ _ _ Hres') as (Hle & Hsame & _).
    simpl in *. split; [exact Hle|].
    intros Hn. rewrite <- Hw in Hn. now rewrite (Hsame Hn).
Qed.

Lemma width_caps_witness :
  resize_by_width cat_image 1600 = Ok cat_image
  /\ width (mkImage RGB (400, 266) [] (Resampled LANCZOS (400, 266) (Samples 0))) <= 400.
Proof.
  split.
  - apply (proj1 width_caps). vm_compute. discriminate.
  - refine (proj1 (proj2 (proj2 width_caps sample_env (images ["a"; "cat.png"]%string)
             (rel_path ["a"; "cat.png"]%string) cat_image
             (rel_path ["images_optimized"; "thumbs"; "a"; "cat.jpg"]%string)
             (jpeg_params 70) _ eq_refl eq_refl _) eq_refl)).
    vm_compute. right; right; right; left. reflexivity.
Defined.

(** C9. The width-capped resize is idempotent: resizing the result again
    to the same target changes nothing (and a failed resize stays the
    same failure), because a resized result is exactly [t] wide. *)
Theorem resize_by_width_idempotent (img : Image) (t : Z) :
  (let* r := resize_by_width img t in resize_by_width r t) = resize_by_width img t
  /\ (forall r, t < width img -> resize_by_width img t = Ok r -> width r = t).
Proof.
  split.
  - destruct (resize_by_width img t) as [r|e] eqn:Hr; simpl; [|reflexivity].
    apply resize_by_width_narrow. now destruct (resize_by_width_le _ _ _ Hr).
  - intros r Hlt Hr. destruct (resize_by_width_le _ _ _ Hr) as (_ & _ & H). auto.
Qed.

(** C3. A path whose extension, lower-cased, is not one of [.jpg],
    [.jpeg], [.png] is passed over without any effect: no directory, no
    output file, no notice. *)
Theorem unsupported_extension_silent cfg env src :
  in_supported (Str.lower (suffix src)) = false ->
  process_one cfg env src = ([], Ok tt).
Proof.
  intros H. unfold process_one, process_one_body. rewrite H. reflexivity.
Qed.

Lemma unsupported_extension_silent_witness :
  process_one default_config sample_env (images ["notes.gif"]%string) = ([], Ok tt).
Proof. apply unsupported_extension_silent. reflexivity. Defined.

(** C4. A source with a supported extension whose size is zero gives
    exactly one notice, the warning, and nothing else: no directory is
    made and no output is written. *)
Theorem empty_file_skipped cfg env src :
  in_supported (Str.lower (suffix src)) = true ->
  st_size env src = Ok 0 ->
  process_one cfg env src = ([Printed (SkippingEmpty src)], Ok tt).
Proof.
  intros H Hs. unfold process_one, process_one_body. rewrite H. simpl.
  rewrite Hs. reflexivity.
Qed.

Lemma empty_file_skipped_witness :
  process_one default_config sample_env (images ["empty.jpg"]%string)
  = ([Printed (SkippingEmpty (images ["empty.jpg"]%string))], Ok tt).
Proof. apply empty_file_skipped; reflexivity. Defined.

(** C8, as the script has it. With metadata stripping enabled the
    normalisation step is [strip_exif]; on every decoded image it returns
    a fresh image of the same size with an empty [info], holding the
    pixel values of the source (converted to RGB unless the source is
    already RGB or RGBA). The result is RGBA exactly when the source mode
    is RGBA, and RGB for every other mode, transparent or not. *)
Theorem strip_exif_modes cfg (img : Image) :
  STRIP_EXIF cfg = true ->
  0 <= width img -> 0 <= height img ->
  exists r,
    normalised cfg img = Ok r
    /\ mode r = (if Mode_eqb (mode img) RGBA then RGBA else RGB)
    /\ size r = size img
    /\ info r = []
    /\ px r = (if rgb_or_rgba (mode img) then px img else Converted RGB (px img)).
Proof.
  intros Hs Hw Hh. unfold normalised. rewrite Hs.
  rewrite (strip_exif_ok img Hw Hh). eexists. split; [reflexivity|].
  simpl. repeat split.
Qed.

Lemma strip_exif_modes_witness :
  exists r,
    normalised default_config cat_image = Ok r
    /\ mode r = RGB /\ size r = (1200, 800) /\ info r = [] /\ px r = Samples 0.
Proof.
  apply (strip_exif_modes default_config cat_image); [reflexivity| |];
    vm_compute; discriminate.
Defined.

(** C8 as stated fails: a grey-with-alpha source has transparency, and
    stripping turns it into a 3-channel RGB image. *)
Lemma strip_exif_drops_alpha :
  has_transparency logo_image = true
  /\ normalised default_config logo_image
     = Ok (mkImage RGB (64, 64) [] (Converted RGB (Samples 2)))
  /\ ~ (forall img r, has_transparency img = true ->
                      normalised default_config img = Ok r -> mode r = RGBA).
Proof.
  split; [reflexivity|]. split; [reflexivity|].
  intros H. specialize (H logo_image _ eq_refl eq_refl). discriminate H.
Qed.

(** ** The alternate format *)

Lemma webp_written_once cfg env src :
  (List.length (filter is_webp_write (fst (process_one cfg env src))) <= 1)%nat.
Proof.
  unfold_script.
  repeat (cbn in *; break_match); cbn; auto.
Qed.

Lemma webp_path_not_in_thumbs cfg (rel a r : Path) :
  anchor rel = ""%string ->
  out_webp cfg rel = Ok a ->
  with_suffix rel ".webp" = Ok r ->
  a <> truediv (THUMB_DIR cfg) r.
Proof.
  unfold out_webp. intros Hrel Ha Hr. rewrite Hr in Ha. simpl in Ha.
  inversion Ha; subst; clear Ha.
  destruct (with_suffix_shape _ _ _ Hr) as (Ha1 & _).
  rewrite !parts_truediv_rel by congruence.
  rewrite parts_THUMB_DIR. simpl. intros Heq. inversion Heq as [Hp].
  apply (f_equal (@List.length string)) in Hp.
  rewrite !length_app in Hp. simpl in Hp. lia.
Qed.

(** C7. An alternate-format (WebP) file is written only when [MAKE_WEBP]
    is on; it goes to the [.webp] path next to the hi-res file, never
    into the thumbnail tree at the source's relative path; the image
    encoded is the very image written to the hi-res path (hence the same
    pixel dimensions); and one source gives at most one WebP file. *)
Theorem webp_only_from_hi cfg env src :
  (forall p params out,
      In (Wrote p params out) (fst (process_one cfg env src)) ->
      format params = WEBP ->
      MAKE_WEBP cfg = true
      /\ exists rel p_hi,
           relative_to src (SRC_DIR cfg) = Ok rel
           /\ out_webp cfg rel = Ok p
           /\ out_hi cfg rel = Ok p_hi
           /\ In (Wrote p_hi (jpeg_params (JPEG_QUALITY cfg)) out)
                 (fst (process_one cfg env src))
           /\ (forall r, with_suffix rel ".webp" = Ok r ->
                         p <> truediv (THUMB_DIR cfg) r))
  /\ (List.length (filter is_webp_write (fst (process_one cfg env src))) <= 1)%nat.
Proof.
  split; [|apply webp_written_once].
  intros p params out Hin Hfmt.
  destruct (process_one_wrote _ _ _ _ _ _ Hin)
    as (rel & p_hi & p_webp & p_thumb & img0 & img & hi
        & Hrel & Hhi & Hwebp & Hthumb & Hopen & Hnorm & Hres & Hinhi & Hcase).
  destruct Hcase as [(_ & -> & _)|[(_ & -> & _)|(-> & -> & -> & Hmk)]];
    try discriminate Hfmt.
  split; [exact Hmk|]. exists rel, p_hi. repeat split; auto.
  intros r Hr. eapply webp_path_not_in_thumbs; eauto.
  eapply relative_to_anchor; eauto.
Qed.

Lemma webp_only_from_hi_witness :
  MAKE_WEBP default_config = true
  /\ exists rel p_hi,
       relative_to (images ["b"; "wide.jpg"]%string) (SRC_DIR default_config) = Ok rel
       /\ out_webp default_config rel
          = Ok (rel_path ["images_optimized"; "b"; "wide.webp"]%string)
       /\ out_hi default_config rel = Ok p_hi
       /\ In (Wrote p_hi (jpeg_params (JPEG_QUALITY default_config))
                (mkImage RGB (1600, 533) [] (Resampled LANCZOS (1600, 533) (Samples 1))))
             (fst (process_one default_config sample_env (images ["b"; "wide.jpg"]%string)))
       /\ (forall r, with_suffix rel ".webp" = Ok r ->
                     rel_path ["images_optimized"; "b"; "wide.webp"]%string
                     <> truediv (THUMB_DIR default_config) r).
Proof.
  apply (proj1 (webp_only_from_hi default_config sample_env
                  (images ["b"; "wide.jpg"]%string))
           _ (webp_params 80)).
  - vm_compute. do 4 right. left. reflexivity.
  - reflexivity.
Defined.

(** ** The traversal driver *)

Lemma process_one_returns cfg env src : snd (process_one cfg env src) = Ok tt.
Proof.
  unfold process_one, try_except.
  destruct (process_one_body cfg env src) as [l [[]|e]]; reflexivity.
Qed.

Lemma for_each_total {A} (body : A -> M unit) (l : list A) :
  (forall x, snd (body x) = Ok tt) ->
  for_each l body = (flat_map (fun x => fst (body x)) l, Ok tt).
Proof.
  intros Hb. induction l as [|x l IH]; simpl; [reflexivity|].
  unfold bind. specialize (Hb x). destruct (body x) as [lx rx]. simpl in *.
  subst rx. rewrite IH. reflexivity.
Qed.

Lemma flat_map_map {A B C} (f : A -> B) (g : B -> list C) (l : list A) :
  flat_map g (map f l) = flat_map (fun x => g (f x)) l.
Proof. induction l; simpl; congruence. Qed.

Lemma flat_map_flat_map {A B C} (f : A -> list B) (g : B -> list C) (l : list A) :
  flat_map g (flat_map f l) = flat_map (fun x => flat_map g (f x)) l.
Proof.
  induction l; simpl; [reflexivity|]. now rewrite flat_map_app, IHl.
Qed.

Lemma main_log cfg env l0 :
  ensure_dirs cfg env = (l0, Ok tt) ->
  main cfg env
  = (l0 ++ flat_map (fun p => fst (process_one cfg env p)) (walked_files cfg env),
     Ok tt).
Proof.
  intros Hd. unfold main. rewrite Hd. unfold bind at 1.
  rewrite for_each_total.
  - f_equal. f_equal. unfold walked_files. rewrite flat_map_flat_map.
    apply flat_map_ext. intros [[root dirs] files].
    rewrite for_each_total by (intros; apply process_one_returns).
    simpl. now rewrite flat_map_map.
  - intros [[root dirs] files].
    rewrite for_each_total by (intros; apply process_one_returns).
    reflexivity.
Qed.

(** C5. An exception raised anywhere in the per-file work is caught by
    [process_one]: the call returns normally, its effects are those
    performed before the exception (outputs already written stay
    written) followed by one failure notice naming the source and the
    error. Once the two root directories exist, [main] therefore returns
    normally and its effects are, file after file in traversal order, the
    effects of [process_one] on every walked file: a failing file stops
    nothing. *)
Theorem per_file_errors_contained cfg env :
  (forall src, snd (process_one cfg env src) = Ok tt)
  /\ (forall src l e,
        process_one_body cfg env src = (l, Raise e) ->
        process_one cfg env src = (l ++ [Printed (ErrorProcessing src e)], Ok tt))
  /\ (forall l0,
        ensure_dirs cfg env = (l0, Ok tt) ->
        main cfg env
        = (l0 ++ flat_map (fun p => fst (process_one cfg env p)) (walked_files cfg env),
           Ok tt)).
Proof.
  split; [intros; apply process_one_returns|]. split.
  - intros src l e Hb. unfold process_one. rewrite Hb. reflexivity.
  - apply main_log.
Qed.

Lemma per_file_errors_contained_witness :
  process_one default_config thumbs_readonly_env (images ["a"; "cat.png"]%string)
  = ([MadeDir (rel_path ["images_optimized"; "a"]%string);
      MadeDir (rel_path ["images_optimized"; "thumbs"; "a"]%string);
      Wrote (rel_path ["images_optimized"; "a"; "cat.jpg"]%string) (jpeg_params 85)
            (mkImage RGB (1200, 800) [] (Samples 0))]
     ++ [Printed (ErrorProcessing (images ["a"; "cat.png"]%string)
                    (OSError "Read-only file system"))],
     Ok tt)
  /\ main default_config sample_env
     = ([MadeDir (rel_path ["images_optimized"]%string);
         MadeDir (rel_path ["images_optimized"; "thumbs"]%string)]
        ++ flat_map (fun p => fst (process_one default_config sample_env p))
                    (walked_files default_config sample_env),
        Ok tt).
Proof.
  split.
  - apply (proj1 (proj2 (per_file_errors_contained default_config thumbs_readonly_env))).
    reflexivity.
  - apply (proj2 (proj2 (per_file_errors_contained default_config sample_env))).
    reflexivity.
Defined.

(** The corrupt file of the sample tree: one failure notice, and the
    files walked after it are still converted. *)
Example corrupt_file_does_not_stop_the_walk :
  let log := fst (main default_config sample_env) in
  snd (main default_config sample_env) = Ok tt
  /\ In (Printed (ErrorProcessing (images ["corrupt.jpg"]%string)
                    (OSError "image file is truncated"))) log
  /\ In (Printed (Done (images ["b"; "wide.jpg"]%string)
                       (rel_path ["images_optimized"; "b"; "wide.jpg"]%string) true)) log.
Proof.
  vm_compute. split; [reflexivity|].
  split; repeat first [left; reflexivity | right].
Qed.

(** ** Output paths *)

Lemma length_drop (n : nat) (s : string) :
  String.length (Str.drop n s) = (String.length s - n)%nat.
Proof.
  revert s. induction n as [|n IH]; intros [|c s]; simpl; auto.
Qed.

Lemma clamp_inside (s : string) (i : Z) :
  0 <= i <= Str.len s -> Str.clamp s i = Z.to_nat i.
Proof.
  unfold Str.clamp. intros H. destruct (Z.ltb_spec i 0); [lia|]. f_equal. lia.
Qed.

Lemma clamp_negative (s : string) (i : Z) :
  0 < i <= Str.len s -> Str.clamp s (- i) = Z.to_nat (Str.len s - i).
Proof.
  unfold Str.clamp. intros H. destruct (Z.ltb_spec (- i) 0); [|lia]. f_equal. lia.
Qed.

Lemma is_empty_length (s : string) :
  Str.is_empty s = true <-> String.length s = 0%nat.
Proof. destruct s; simpl; split; intros; (reflexivity || discriminate). Qed.

(** [with_suffix] replaces the last component by its stem followed by
    the new suffix. *)
Lemma with_suffix_parts (p r : Path) (sfx : string) :
  with_suffix p sfx = Ok r ->
  r = mkPath (anchor p) (removelast (parts p) ++ [(stem p ++ sfx)%string]).
Proof.
  unfold with_suffix, suffix, stem.
  destruct (invalid_suffix sfx); [discriminate|].
  destruct (Str.is_empty (name p)); [discriminate|].
  set (nm := name p). set (i := Str.rfind nm "."%char).
  destruct ((0 <? i) && (i <? Str.len nm - 1)) eqn:Hc.
  - apply andb_prop in Hc. destruct Hc as [H0 H1].
    apply Z.ltb_lt in H0. apply Z.ltb_lt in H1.
    unfold Str.slice_from, Str.slice_to.
    rewrite (clamp_inside nm i) by lia.
    assert (Hlen : Str.len (Str.drop (Z.to_nat i) nm) = Str.len nm - i).
    { unfold Str.len in *. rewrite length_drop. lia. }
    destruct (Str.is_empty (Str.drop (Z.to_nat i) nm)) eqn:He.
    + apply is_empty_length in He. unfold Str.len in *. lia.
    + rewrite Hlen, clamp_negative by lia.
      replace (Str.len nm - (Str.len nm - i)) with i by lia.
      intros H; inversion H; reflexivity.
  - simpl. intros H; inversion H; reflexivity.
Qed.

Lemma append_length (a b : string) :
  String.length (a ++ b) = (String.length a + String.length b)%nat.
Proof. induction a; simpl; congruence. Qed.

Lemma append_inv_tail (a b s : string) : (a ++ s = b ++ s)%string -> a = b.
Proof.
  revert b. induction a as [|c a IH]; intros [|d b] H; simpl in H.
  - reflexivity.
  - apply (f_equal String.length) in H. simpl in H. rewrite append_length in H. lia.
  - apply (f_equal String.length) in H. simpl in H. rewrite append_length in H. lia.
  - inversion H; subst. f_equal. now apply IH.
Qed.

Lemma last_char_append (a s : string) :
  s <> EmptyString -> last_char (a ++ s) = last_char s.
Proof.
  intros Hs. induction a as [|c a IH]; simpl; [reflexivity|].
  destruct (a ++ s)%string eqn:Ha.
  - destruct a; simpl in Ha; [congruence|discriminate].
  - exact IH.
Qed.

Lemma jpg_is_not_webp (a b : string) : (a ++ ".jpg" <> b ++ ".webp")%string.
Proof.
  intros H. apply (f_equal last_char) in H.
  rewrite !last_char_append in H by discriminate. discriminate.
Qed.

Lemma output_path_parts cfg kind (rel p : Path) :
  anchor rel = ""%string ->
  output_path cfg kind rel = Ok p ->
  p = mkPath (anchor (OUT_DIR cfg))
             (parts (OUT_DIR cfg)
                ++ (subdir_of kind ++ removelast (parts rel))
                ++ [(stem rel ++ extension_of kind)%string]).
Proof.
  intros Hrel H.
  destruct kind; simpl in H; unfold out_hi, out_webp, out_thumb in H;
    match type of H with
    | context [with_suffix rel ?s] =>
        destruct (with_suffix rel s) as [r|] eqn:Hr; [|discriminate]
    end;
    apply with_suffix_parts in Hr; subst r; simpl in H;
    inversion H; subst p; clear H;
    rewrite parts_truediv_rel by (simpl; assumption); simpl;
    rewrite ?Hrel; simpl; rewrite <- ?app_assoc; reflexivity.
Qed.

Lemma output_path_ok cfg kind (rel : Path) :
  anchor rel = ""%string ->
  Str.is_empty (name rel) = false ->
  output_path cfg kind rel
  = Ok (mkPath (anchor (OUT_DIR cfg))
               (parts (OUT_DIR cfg)
                  ++ (subdir_of kind ++ removelast (parts rel))
                  ++ [(stem rel ++ extension_of kind)%string])).
Proof.
  intros Hrel Hn.
  assert (Hex : exists p, output_path cfg kind rel = Ok p).
  { destruct kind; simpl; unfold out_hi, out_webp, out_thumb, with_suffix;
      simpl; rewrite Hn; simpl; eauto. }
  destruct Hex as [p Hp]. rewrite Hp. f_equal.
  now apply output_path_parts.
Qed.

Lemma app_single_inj {A} (l1 l2 : list A) (x y : A) :
  l1 ++ [x] = l2 ++ [y] -> l1 = l2 /\ x = y.
Proof. apply app_inj_tail. Qed.

Lemma output_path_collision cfg k1 k2 (rel1 rel2 p : Path) :
  anchor rel1 = ""%string -> anchor rel2 = ""%string ->
  output_path cfg k1 rel1 = Ok p ->
  output_path cfg k2 rel2 = Ok p ->
  (k1 = k2 /\ same_but_suffix rel1 rel2)
  \/ (k1 = Thumbnail /\ k2 = HiRes /\ under_thumbs rel1 rel2)
  \/ (k1 = HiRes /\ k2 = Thumbnail /\ under_thumbs rel2 rel1).
Proof.
  intros Ha1 Ha2 H1 H2.
  apply output_path_parts in H1; [|assumption].
  apply output_path_parts in H2; [|assumption].
  rewrite H1 in H2. inversion H2 as [Hp]. clear H1 H2.
  apply app_inv_head in Hp. apply app_single_inj in Hp. destruct Hp as [Hd Hn].
  unfold same_but_suffix, under_thumbs.
  destruct k1, k2; simpl in *;
    try (exfalso; eapply jpg_is_not_webp; (exact Hn || (symmetry; exact Hn)));
    apply append_inv_tail in Hn.
  - left; auto.
  - right; right; auto.
  - left; auto.
  - right; left; auto.
  - left. inversion Hd. auto.
Qed.

(** C6, as the script has it. The three output paths of a source are
    functions of the output root, the relative path and the artifact
    kind: the relative directory is kept, the last component becomes its
    stem followed by [.jpg] (hi-res, thumbnail) or [.webp] (alternate
    format), and the thumbnail goes under [thumbs]; every file
    [process_one] writes is at one of them. Two sources get the same
    path for the same kind only when their relative paths differ in the
    extension alone; across kinds the one coincidence is a thumbnail
    path with the hi-res path of the source at [thumbs/] plus the same
    relative path. *)
Theorem output_paths_determined cfg :
  (forall kind rel,
      anchor rel = ""%string -> Str.is_empty (name rel) = false ->
      output_path cfg kind rel
      = Ok (mkPath (anchor (OUT_DIR cfg))
                   (parts (OUT_DIR cfg)
                      ++ (subdir_of kind ++ removelast (parts rel))
                      ++ [(stem rel ++ extension_of kind)%string])))
  /\ (forall env src p params out,
        In (Wrote p params out) (fst (process_one cfg env src)) ->
        exists rel kind,
          relative_to src (SRC_DIR cfg) = Ok rel /\ output_path cfg kind rel = Ok p)
  /\ (forall k1 k2 rel1 rel2 p,
        anchor rel1 = ""%string -> anchor rel2 = ""%string ->
        output_path cfg k1 rel1 = Ok p ->
        output_path cfg k2 rel2 = Ok p ->
        (k1 = k2 /\ same_but_suffix rel1 rel2)
        \/ (k1 = Thumbnail /\ k2 = HiRes /\ under_thumbs rel1 rel2)
        \/ (k1 = HiRes /\ k2 = Thumbnail /\ under_thumbs rel2 rel1)).
Proof.
  split; [intros; now apply output_path_ok|]. split.
  - intros env src p params out Hin.
    destruct (process_one_wrote _ _ _ _ _ _ Hin)
      as (rel & p_hi & p_webp & p_thumb & img0 & img & hi
          & Hrel & Hhi & Hwebp & Hthumb & _ & _ & _ & _ & Hcase).
    exists rel.
    destruct Hcase as [(-> & _)|[(-> & _)|(-> & _)]];
      [exists HiRes|exists Thumbnail|exists AltFormat]; auto.
  - intros. eapply output_path_collision; eauto.
Qed.

Lemma output_paths_determined_witness :
  (HiRes = HiRes
   /\ same_but_suffix (rel_path ["a"; "cat.png"]%string) (rel_path ["a"; "cat.JPG"]%string))
  \/ (HiRes = Thumbnail /\ HiRes = HiRes
      /\ under_thumbs (rel_path ["a"; "cat.png"]%string) (rel_path ["a"; "cat.JPG"]%string))
  \/ (HiRes = HiRes /\ HiRes = Thumbnail
      /\ under_thumbs (rel_path ["a"; "cat.JPG"]%string) (rel_path ["a"; "cat.png"]%string)).
Proof.
  apply (proj2 (proj2 (output_paths_determined default_config))
           HiRes HiRes _ _ (rel_path ["images_optimized"; "a"; "cat.jpg"]%string));
    reflexivity.
Defined.

(** C6 as stated fails: [images/cat.png] and [images/thumbs/cat.png] are
    two accepted sources whose relative paths differ by more than the
    extension, yet the thumbnail of the first and the hi-res file of the
    second are written to the same path. *)
Lemma thumbs_directory_collision :
  let src1 := images ["cat.png"]%string in
  let src2 := images ["thumbs"; "cat.png"]%string in
  let rel1 := rel_path ["cat.png"]%string in
  let rel2 := rel_path ["thumbs"; "cat.png"]%string in
  let shared := rel_path ["images_optimized"; "thumbs"; "cat.jpg"]%string in
  relative_to src1 (SRC_DIR default_config) = Ok rel1
  /\ relative_to src2 (SRC_DIR default_config) = Ok rel2
  /\ in_supported (Str.lower (suffix src1)) = true
  /\ in_supported (Str.lower (suffix src2)) = true
  /\ output_path default_config Thumbnail rel1 = Ok shared
  /\ output_path default_config HiRes rel2 = Ok shared
  /\ (exists params out,
        In (Wrote shared params out) (fst (process_one default_config sample_env src1)))
  /\ (exists params out,
        In (Wrote shared params out) (fst (process_one default_config sample_env src2)))
  /\ ~ same_but_suffix rel1 rel2.
Proof.
  cbv zeta. repeat split; try reflexivity.
  - eexists _, _. vm_compute. do 3 right. left. reflexivity.
  - eexists _, _. vm_compute. do 2 right. left. reflexivity.
  - intros [H _]. discriminate H.
Qed.

(* ===================================================================== *)
(** * binary64: rounding of positive normal values *)
(* ===================================================================== *)

Lemma digits2_pos_size (p : positive) : digits2_pos p = Pos.size p.
Proof. induction p; simpl; congruence. Qed.

Lemma Zdigits2_log2 (m : Z) : 0 < m -> Zdigits2 m = Z.log2 m + 1.
Proof.
  destruct m as [|p|p]; try lia. intros _. simpl.
  rewrite digits2_pos_size. destruct p; simpl; lia.
Qed.

Lemma Zdigits2_bounds (m : Z) :
  0 < m -> 2 ^ (Zdigits2 m - 1) <= m < 2 ^ Zdigits2 m.
Proof.
  intros H. rewrite (Zdigits2_log2 m H).
  replace (Z.log2 m + 1 - 1) with (Z.log2 m) by lia.
  pose proof (Z.log2_spec m H). unfold Z.succ in *. lia.
Qed.

Lemma Zdigits2_unique (m d : Z) :
  0 < d -> 2 ^ (d - 1) <= m < 2 ^ d -> Zdigits2 m = d.
Proof.
  intros Hd Hm.
  assert (0 < m) by (pose proof (Z.pow_pos_nonneg 2 (d - 1)); lia).
  rewrite Zdigits2_log2 by assumption.
  rewrite (Z.log2_unique m (d - 1)); try lia.
  unfold Z.succ. replace (d - 1 + 1) with d by lia. assumption.
Qed.

Lemma shr_1_m (mrs : shr_record) :
  0 <= shr_m mrs -> shr_m (shr_1 mrs) = shr_m mrs / 2.
Proof.
  destruct mrs as [m r s]; simpl. intros Hm.
  destruct m as [|[p|p|]|p]; simpl; try lia; try reflexivity.
  - rewrite Pos2Z.inj_xI. apply Z.div_unique with (r := 1); lia.
  - rewrite Pos2Z.inj_xO. apply Z.div_unique with (r := 0); lia.
Qed.

Lemma pow2_xO (n : positive) : 2 ^ Z.pos n~0 = 2 ^ Z.pos n * 2 ^ Z.pos n.
Proof.
  replace (Z.pos n~0) with (Z.pos n + Z.pos n) by lia. apply Z.pow_add_r; lia.
Qed.

Lemma pow2_xI (n : positive) : 2 ^ Z.pos n~1 = 2 * (2 ^ Z.pos n * 2 ^ Z.pos n).
Proof.
  replace (Z.pos n~1) with (1 + (Z.pos n + Z.pos n)) by lia.
  rewrite Z.pow_add_r, Z.pow_add_r by lia. reflexivity.
Qed.

Lemma iter_shr_1_m (n : positive) (mrs : shr_record) :
  0 <= shr_m mrs ->
  shr_m (iter_pos shr_1 n mrs) = shr_m mrs / 2 ^ Zpos n.
Proof.
  revert mrs. induction n as [n IH|n IH|]; intros mrs Hm; simpl iter_pos.
  - assert (H1 : 0 <= shr_m (shr_1 mrs)).
    { rewrite shr_1_m by assumption. apply Z.div_pos; lia. }
    assert (H2 : 0 <= shr_m (iter_pos shr_1 n (shr_1 mrs))).
    { rewrite IH by assumption. apply Z.div_pos; lia. }
    rewrite IH, IH, shr_1_m by assumption.
    rewrite !Z.div_div by lia. now rewrite pow2_xI.
  - assert (H2 : 0 <= shr_m (iter_pos shr_1 n mrs)).
    { rewrite IH by assumption. apply Z.div_pos; lia. }
    rewrite IH, IH by assumption.
    rewrite !Z.div_div by lia. now rewrite pow2_xO.
  - rewrite shr_1_m by assumption. reflexivity.
Qed.

Lemma round_nearest_even_bounds (m : Z) (l : location) :
  m <= round_nearest_even m l <= m + 1.
Proof.
  destruct l as [|[| |]]; simpl; try lia. destruct (Z.even m); lia.
Qed.

Lemma loc_of_shr_record_of_loc (m : Z) (l : location) :
  loc_of_shr_record (shr_record_of_loc m l) = l.
Proof. destruct l as [|[| |]]; reflexivity. Qed.

Lemma shr_m_of_loc (m : Z) (l : location) : shr_m (shr_record_of_loc m l) = m.
Proof. destruct l as [|[| |]]; reflexivity. Qed.

Lemma shr_spec (mrs : shr_record) (e n : Z) :
  0 <= shr_m mrs -> 0 <= n ->
  exists mrs', shr mrs e n = (mrs', e + n)
               /\ shr_m mrs' = shr_m mrs / 2 ^ n
               /\ (n = 0 -> mrs' = mrs).
Proof.
  intros Hm Hn. destruct n as [|p|p]; try lia.
  - exists mrs. simpl. rewrite Z.add_0_r, Z.div_1_r. auto.
  - exists (iter_pos shr_1 p mrs). simpl. split; [reflexivity|]. split.
    + now apply iter_shr_1_m.
    + discriminate.
Qed.

Lemma fexp_normal (x : Z) : -1074 <= x - 53 -> fexp Float64.prec Float64.emax x = x - 53.
Proof. unfold fexp, emin, Float64.prec, Float64.emax. lia. Qed.

Lemma binary_round_aux_normal (m e : Z) (l : location) :
  let n := Zdigits2 m - 53 in
  0 < m -> 0 <= n -> -1074 <= e + n -> e + n + 1 <= 971 ->
  exists (m2 : Z) (m' : positive) (e' : Z),
    m / 2 ^ n <= m2 <= m / 2 ^ n + 1
    /\ 2 ^ 52 <= m / 2 ^ n
    /\ (l = loc_Exact -> n = 0 -> m2 = m)
    /\ binary_round_aux Float64.prec Float64.emax false m e l = S754_finite false m' e'
    /\ 2 ^ 52 <= Zpos m' < 2 ^ 53
    /\ ((Zpos m' = m2 /\ e' = e + n)
        \/ (m2 = 2 ^ 53 /\ Zpos m' = 2 ^ 52 /\ e' = e + n + 1)).
Proof.
  intros n Hm Hn Hlo Hhi.
  pose proof (Zdigits2_bounds m Hm) as Hd.
  set (d := Zdigits2 m) in *. assert (Hdn : d = n + 53) by (unfold n; lia).
  (* the truncated mantissa has exactly 53 digits *)
  assert (Hm1 : 2 ^ 52 <= m / 2 ^ n < 2 ^ 53).
  { rewrite Hdn in Hd. replace (n + 53 - 1) with (52 + n) in Hd by lia.
    rewrite (Z.add_comm n 53) in Hd. rewrite !Z.pow_add_r in Hd by lia.
    assert (0 < 2 ^ n) by (apply Z.pow_pos_nonneg; lia).
    split.
    - apply Z.div_le_lower_bound; lia.
    - apply Z.div_lt_upper_bound; lia. }
  unfold binary_round_aux, shr_fexp. fold d.
  rewrite fexp_normal by lia.
  replace (d + e - 53 - e) with n by lia.
  destruct (shr_spec (shr_record_of_loc m l) e n) as (mrs1 & Hs1 & Hv1 & Hz1);
    [rewrite shr_m_of_loc; lia | lia |].
  rewrite Hs1. rewrite shr_m_of_loc in Hv1. rewrite Hv1.
  set (m2 := round_nearest_even (m / 2 ^ n) (loc_of_shr_record mrs1)).
  assert (Hm2 : m / 2 ^ n <= m2 <= m / 2 ^ n + 1)
    by apply round_nearest_even_bounds.
  assert (Hex : l = loc_Exact -> n = 0 -> m2 = m).
  { intros -> Hn0. unfold m2. rewrite (Hz1 Hn0). simpl.
    rewrite Hn0. apply Z.div_1_r. }
  destruct (Z.eq_dec m2 (2 ^ 53)) as [Hov|Hnov].
  - (* rounding carried into a 54th digit *)
    assert (Hd2 : Zdigits2 m2 = 54) by (rewrite Hov; reflexivity).
    rewrite Hd2, fexp_normal by lia.
    replace (54 + (e + n) - 53 - (e + n)) with 1 by lia.
    rewrite Hov. simpl shr.
    change (shr_m (shr_1 (shr_record_of_loc (2 ^ 53) loc_Exact)))
      with (Z.pos (2 ^ 52)).
    cbv iota beta.
    destruct (Z.leb_spec (e + n + Z.pos 1) (Float64.emax - Float64.prec));
      [|unfold Float64.emax, Float64.prec in *; lia].
    exists m2, (2 ^ 52)%positive, (e + n + 1). repeat split; auto; try lia.
  - assert (Hd2 : Zdigits2 m2 = 53) by (apply Zdigits2_unique; lia).
    rewrite Hd2, fexp_normal by lia.
    replace (53 + (e + n) - 53 - (e + n)) with 0 by lia.
    simpl shr. cbv iota beta. simpl shr_m.
    destruct m2 as [|p2|p2] eqn:Hp2; try lia.
    destruct (Z.leb_spec (e + n) (Float64.emax - Float64.prec));
      [|unfold Float64.emax, Float64.prec in *; lia].
    exists (Z.pos p2), p2, (e + n). repeat split; auto; try lia.
Qed.

Lemma iter_xO (p k : positive) : Zpos (Pos.iter xO p k) = Zpos p * 2 ^ Zpos k.
Proof.
  induction k as [|k IH] using Pos.peano_ind.
  - simpl. lia.
  - rewrite Pos.iter_succ, Pos2Z.inj_xO, IH, Pos2Z.inj_succ, Z.pow_succ_r by lia.
    lia.
Qed.

(** Conversion of a positive integer below 2^53 is exact. *)
Lemma binary_normalize_exact (n : Z) :
  0 < n < 2 ^ 53 ->
  exists (m : positive) (k : Z),
    binary_normalize Float64.prec Float64.emax n 0 false = S754_finite false m (- k)
    /\ k = 53 - Zdigits2 n
    /\ Zpos m = n * 2 ^ k /\ 0 <= k <= 52 /\ 2 ^ 52 <= Zpos m < 2 ^ 53.
Proof.
  intros [Hn0 Hn]. destruct n as [|p|p]; try lia.
  pose proof (Zdigits2_bounds (Zpos p) Hn0) as Hd.
  assert (Hd1 : 1 <= Zdigits2 (Zpos p)) by (simpl; lia).
  assert (Hd53 : Zdigits2 (Zpos p) <= 53).
  { destruct (Z.le_gt_cases (Zdigits2 (Zpos p)) 53) as [|Hgt]; [assumption|].
    assert (2 ^ 53 <= 2 ^ (Zdigits2 (Z.pos p) - 1))
      by (apply Z.pow_le_mono_r; lia).
    lia. }
  set (k := 53 - Zdigits2 (Zpos p)).
  assert (Hk : 0 <= k <= 52) by (unfold k; lia).
  unfold binary_normalize, binary_round.
  change (Z.pos (digits2_pos p)) with (Zdigits2 (Zpos p)).
  rewrite fexp_normal by lia.
  replace (Zdigits2 (Z.pos p) + 0 - 53) with (- k) by (unfold k; lia).
  assert (Hal : exists mz, shl_align p 0 (- k) = (mz, - k) /\ Zpos mz = Zpos p * 2 ^ k).
  { unfold shl_align. rewrite Z.sub_0_r. destruct k as [|q|q]; try lia.
    - exists p. simpl. split; [reflexivity|lia].
    - exists (Pos.iter xO p q). simpl. split; [reflexivity|apply iter_xO]. }
  destruct Hal as (mz & -> & Hmz).
  assert (Hmzb : 2 ^ 52 <= Zpos mz < 2 ^ 53).
  { rewrite Hmz. unfold k.
    assert (H52 : 2 ^ 52 = 2 ^ (Zdigits2 (Zpos p) - 1) * 2 ^ (53 - Zdigits2 (Zpos p))).
    { rewrite <- Z.pow_add_r by lia. f_equal. lia. }
    assert (H53 : 2 ^ 53 = 2 ^ (Zdigits2 (Zpos p)) * 2 ^ (53 - Zdigits2 (Zpos p))).
    { rewrite <- Z.pow_add_r by lia. f_equal. lia. }
    assert (0 < 2 ^ (53 - Zdigits2 (Zpos p))) by (apply Z.pow_pos_nonneg; lia).
    rewrite H52, H53. nia. }
  assert (Hdz : Zdigits2 (Zpos mz) = 53) by (apply Zdigits2_unique; lia).
  pose proof (binary_round_aux_normal (Zpos mz) (- k) loc_Exact) as HB.
  cbv zeta in HB. rewrite Hdz in HB.
  destruct HB as (m2 & m' & e' & _ & _ & Hex & Hr & Hb & Hcase); try lia.
  specialize (Hex eq_refl eq_refl).
  exists m', k. destruct Hcase as [(Hm' & He')|(Hov & _)]; [|lia].
  rewrite Hr. replace e' with (- k) by lia. repeat split; try lia.
Qed.

Lemma SFdiv_core_binary_normal (mt mw : positive) (kt kw : Z) :
  2 ^ 52 <= Zpos mt < 2 ^ 53 -> 2 ^ 52 <= Zpos mw < 2 ^ 53 ->
  0 <= kt <= 52 -> 0 <= kw <= 52 ->
  exists l,
    SFdiv_core_binary Float64.prec Float64.emax (Zpos mt) (- kt) (Zpos mw) (- kw)
    = (Zpos mt * 2 ^ 53 / Zpos mw, kw - kt - 53, l).
Proof.
  intros Hmt Hmw Hkt Hkw.
  assert (Hdt : Zdigits2 (Zpos mt) = 53) by (apply Zdigits2_unique; lia).
  assert (Hdw : Zdigits2 (Zpos mw) = 53) by (apply Zdigits2_unique; lia).
  unfold SFdiv_core_binary. rewrite Hdt, Hdw.
  rewrite fexp_normal by lia. rewrite Z.min_l by lia.
  replace (- kt - - kw - (53 + - kt - (53 + - kw) - 53)) with 53 by lia.
  replace (53 + - kt - (53 + - kw) - 53) with (kw - kt - 53) by lia.
  cbv iota. rewrite Z.shiftl_mul_pow2 by lia.
  unfold Z.div.
  destruct (Z.div_eucl (Z.pos mt * 2 ^ 53) (Z.pos mw)) as [q r].
  eexists. reflexivity.
Qed.

Lemma div_succ_gt (a b : Z) : 0 < b -> a < (a / b + 1) * b.
Proof.
  intros Hb. pose proof (Z.div_mod a b ltac:(lia)).
  pose proof (Z.mod_pos_bound a b Hb). nia.
Qed.

(** The quotient of two normal floats, the first below the second: the
    result is a normal float within a factor [1 + 2^-52] of the exact
    quotient, either way. *)
Lemma SFdiv_bounds (mt mw : positive) (kt kw : Z) :
  2 ^ 52 <= Zpos mt < 2 ^ 53 -> 2 ^ 52 <= Zpos mw < 2 ^ 53 ->
  0 <= kw -> kw <= kt -> kt <= 52 ->
  exists (mr : positive) (K : Z),
    SFdiv Float64.prec Float64.emax
          (S754_finite false mt (- kt)) (S754_finite false mw (- kw))
    = S754_finite false mr (- K)
    /\ 2 ^ 52 <= Zpos mr < 2 ^ 53
    /\ 51 <= K <= 105
    /\ Zpos mr * Zpos mw * 2 ^ kt * 2 ^ 52
       <= Zpos mt * 2 ^ kw * (2 ^ 52 + 1) * 2 ^ K
    /\ Zpos mt * 2 ^ kw * 2 ^ K * 2 ^ 52
       <= Zpos mr * Zpos mw * 2 ^ kt * (2 ^ 52 + 1).
Proof.
  intros Hmt Hmw Hkw0 Hkwt Hkt.
  destruct (SFdiv_core_binary_normal mt mw kt kw) as [l Hcore]; try lia.
  unfold SFdiv. rewrite Hcore. simpl xorb.
  set (q := Zpos mt * 2 ^ 53 / Zpos mw) in *.
  assert (Hq : 2 ^ 52 <= q < 2 ^ 54).
  { unfold q. split.
    - apply Z.div_le_lower_bound; lia.
    - apply Z.div_lt_upper_bound; lia. }
  assert (Hqmw : q * Zpos mw <= Zpos mt * 2 ^ 53).
  { unfold q. rewrite Z.mul_comm. apply Z.mul_div_le. lia. }
  assert (Hqmw' : Zpos mt * 2 ^ 53 < (q + 1) * Zpos mw).
  { unfold q. apply div_succ_gt. lia. }
  assert (Hnq : Zdigits2 q - 53 = 0 \/ Zdigits2 q - 53 = 1).
  { destruct (Z_lt_le_dec q (2 ^ 53)).
    - left. rewrite (Zdigits2_unique q 53); lia.
    - right. rewrite (Zdigits2_unique q 54); lia. }
  pose proof (binary_round_aux_normal q (kw - kt - 53) l) as HB.
  cbv zeta in HB. set (nq := Zdigits2 q - 53) in *.
  destruct HB as (m2 & mr & er & Hm2 & HQ & _ & Hr & Hb & Hcase); try lia.
  set (Q := q / 2 ^ nq) in *.
  assert (HN : 0 < 2 ^ nq) by (apply Z.pow_pos_nonneg; lia).
  assert (HQq : Q * 2 ^ nq <= q).
  { unfold Q. rewrite Z.mul_comm. apply Z.mul_div_le. lia. }
  assert (HQq' : q < (Q + 1) * 2 ^ nq).
  { unfold Q. apply div_succ_gt. lia. }
  assert (HA : 0 < 2 ^ kt) by (apply Z.pow_pos_nonneg; lia).
  assert (HBp : 0 < 2 ^ kw) by (apply Z.pow_pos_nonneg; lia).
  (* the bounds on the rounded mantissa [m2], at exponent [kw - kt - 53 + nq] *)
  set (K' := kt - kw + 53 - nq).
  assert (HK' : 2 ^ K' * 2 ^ kw * 2 ^ nq = 2 ^ kt * 2 ^ 53).
  { rewrite <- !Z.pow_add_r by (unfold K'; lia). f_equal. unfold K'. lia. }
  assert (HPK : 0 < 2 ^ K') by (apply Z.pow_pos_nonneg; unfold K'; lia).
  assert (Hup : m2 * Zpos mw * 2 ^ kt * 2 ^ 52
                <= Zpos mt * 2 ^ kw * (2 ^ 52 + 1) * 2 ^ K').
  { assert (H1 : m2 * 2 ^ 52 <= Q * (2 ^ 52 + 1)) by lia.
    assert (H2 : Q * Zpos mw * 2 ^ kt <= Zpos mt * 2 ^ kw * 2 ^ K').
    { apply Z.mul_le_mono_pos_r with (p := 2 ^ nq * 2 ^ kw); [lia|].
      replace (Zpos mt * 2 ^ kw * 2 ^ K' * (2 ^ nq * 2 ^ kw))
        with (Zpos mt * 2 ^ kw * (2 ^ K' * 2 ^ kw * 2 ^ nq)) by ring.
      rewrite HK'.
      replace (Q * Zpos mw * 2 ^ kt * (2 ^ nq * 2 ^ kw))
        with ((Q * 2 ^ nq) * Zpos mw * (2 ^ kt * 2 ^ kw)) by ring.
      replace (Zpos mt * 2 ^ kw * (2 ^ kt * 2 ^ 53))
        with ((Zpos mt * 2 ^ 53) * (2 ^ kt * 2 ^ kw)) by ring.
      apply Z.mul_le_mono_nonneg_r; [lia|].
      apply Z.le_trans with (q * Zpos mw); [|exact Hqmw].
      apply Z.mul_le_mono_nonneg_r; lia. }
    replace (m2 * Zpos mw * 2 ^ kt * 2 ^ 52)
      with ((m2 * 2 ^ 52) * (Zpos mw * 2 ^ kt)) by ring.
    apply Z.le_trans with (Q * (2 ^ 52 + 1) * (Zpos mw * 2 ^ kt)).
    - apply Z.mul_le_mono_nonneg_r; lia.
    - replace (Q * (2 ^ 52 + 1) * (Zpos mw * 2 ^ kt))
        with ((Q * Zpos mw * 2 ^ kt) * (2 ^ 52 + 1)) by ring.
      replace (Zpos mt * 2 ^ kw * (2 ^ 52 + 1) * 2 ^ K')
        with ((Zpos mt * 2 ^ kw * 2 ^ K') * (2 ^ 52 + 1)) by ring.
      apply Z.mul_le_mono_nonneg_r; lia. }
  assert (Hlo : Zpos mt * 2 ^ kw * 2 ^ K' * 2 ^ 52
                <= m2 * Zpos mw * 2 ^ kt * (2 ^ 52 + 1)).
  { assert (H1 : (Q + 1) * 2 ^ 52 <= m2 * (2 ^ 52 + 1)) by nia.
    assert (H2 : Zpos mt * 2 ^ 53 <= (Q + 1) * 2 ^ nq * Zpos mw).
    { apply Z.le_trans with ((q + 1) * Zpos mw); [lia|].
      apply Z.mul_le_mono_nonneg_r; lia. }
    apply Z.mul_le_mono_pos_r with (p := 2 ^ nq); [lia|].
    replace (Zpos mt * 2 ^ kw * 2 ^ K' * 2 ^ 52 * 2 ^ nq)
      with (Zpos mt * 2 ^ 52 * (2 ^ K' * 2 ^ kw * 2 ^ nq)) by ring.
    rewrite HK'.
    replace (Zpos mt * 2 ^ 52 * (2 ^ kt * 2 ^ 53))
      with ((Zpos mt * 2 ^ 53) * (2 ^ 52 * 2 ^ kt)) by ring.
    apply Z.le_trans with ((Q + 1) * 2 ^ nq * Zpos mw * (2 ^ 52 * 2 ^ kt)).
    - apply Z.mul_le_mono_nonneg_r; lia.
    - replace ((Q + 1) * 2 ^ nq * Zpos mw * (2 ^ 52 * 2 ^ kt))
        with (((Q + 1) * 2 ^ 52) * (2 ^ nq * Zpos mw * 2 ^ kt)) by ring.
      replace (m2 * Zpos mw * 2 ^ kt * (2 ^ 52 + 1) * 2 ^ nq)
        with ((m2 * (2 ^ 52 + 1)) * (2 ^ nq * Zpos mw * 2 ^ kt)) by ring.
      apply Z.mul_le_mono_nonneg_r; [|exact H1].
      apply Z.mul_nonneg_nonneg; [|lia]. apply Z.mul_nonneg_nonneg; lia. }
  rewrite Hr. destruct Hcase as [(Hmr & Her)|(Hov & Hmr & Her)].
  - exists mr, K'. replace (- K') with er by (unfold K'; lia).
    split; [reflexivity|]. split; [lia|]. split; [unfold K'; lia|].
    rewrite Hmr. split; assumption.
  - exists mr, (K' - 1). replace (- (K' - 1)) with er by (unfold K'; lia).
    split; [reflexivity|]. split; [lia|]. split; [unfold K'; lia|].
    assert (HK1 : 2 ^ K' = 2 * 2 ^ (K' - 1)).
    { rewrite <- Z.pow_succ_r by (unfold K'; lia). f_equal. lia. }
    rewrite Hov, HK1 in Hup, Hlo. rewrite Hmr.
    change (2 ^ 53) with (2 * 2 ^ 52) in Hup, Hlo. split; lia.
Qed.

(** The product of a float with a normal float: the result is within a
    factor [1 + 2^-52] of the exact product, either way. Its integer
    part is read off the rounded mantissa [m2] at the exponent
    [n - kh - K]. *)
Lemma SFmul_bounds (mh mr : positive) (kh K : Z) :
  Zpos mh < 2 ^ 53 -> 2 ^ 52 <= Zpos mr < 2 ^ 53 ->
  0 <= kh <= 52 -> 51 <= K <= 105 ->
  exists (m' : positive) (e' m2 n : Z),
    SFmul Float64.prec Float64.emax
          (S754_finite false mh (- kh)) (S754_finite false mr (- K))
    = S754_finite false m' e'
    /\ 0 <= n /\ 2 ^ 52 <= m2
    /\ Z.shiftl (Zpos m') e' = Z.shiftl m2 (n - kh - K)
    /\ Zpos mh * Zpos mr * 2 ^ 52 <= m2 * 2 ^ n * (2 ^ 52 + 1)
    /\ m2 * 2 ^ n * 2 ^ 52 <= Zpos mh * Zpos mr * (2 ^ 52 + 1).
Proof.
  intros Hmh Hmr Hkh HK.
  unfold SFmul. simpl xorb. rewrite Pos2Z.inj_mul.
  set (P := Zpos mh * Zpos mr) in *.
  assert (HP : 2 ^ 52 <= P < 2 ^ 106).
  { unfold P. change (2 ^ 106) with (2 ^ 53 * 2 ^ 53). nia. }
  pose proof (Zdigits2_bounds P ltac:(lia)) as Hd.
  set (d := Zdigits2 P) in *.
  assert (Hd53 : 53 <= d).
  { destruct (Z.le_gt_cases 53 d) as [|Hgt]; [assumption|].
    assert (2 ^ d <= 2 ^ 52) by (apply Z.pow_le_mono_r; lia). lia. }
  assert (Hd106 : d <= 106).
  { destruct (Z.le_gt_cases d 106) as [|Hgt]; [assumption|].
    assert (2 ^ 106 <= 2 ^ (d - 1)) by (apply Z.pow_le_mono_r; lia). lia. }
  pose proof (binary_round_aux_normal P (- kh + - K) loc_Exact) as HB.
  cbv zeta in HB. fold d in HB. set (n := d - 53) in *.
  destruct HB as (m2 & m' & e' & Hm2 & HQ & _ & Hr & Hb & Hcase); try lia.
  set (Q := P / 2 ^ n) in *.
  assert (HN : 0 < 2 ^ n) by (apply Z.pow_pos_nonneg; lia).
  assert (HQP : Q * 2 ^ n <= P).
  { unfold Q. rewrite Z.mul_comm. apply Z.mul_div_le. lia. }
  assert (HQP' : P < (Q + 1) * 2 ^ n).
  { unfold Q. apply div_succ_gt. lia. }
  exists m', e', m2, n. split; [exact Hr|]. split; [lia|]. split; [lia|].
  split; [|split].
  - destruct Hcase as [(Hm' & He')|(Hov & Hm' & He')].
    + rewrite Hm'. f_equal. lia.
    + rewrite Hm', Hov. change (2 ^ 53) with (Z.shiftl (2 ^ 52) 1).
      rewrite Z.shiftl_shiftl by lia. f_equal. lia.
  - assert (H1 : (Q + 1) * 2 ^ 52 <= m2 * (2 ^ 52 + 1)) by nia.
    apply Z.le_trans with ((Q + 1) * 2 ^ n * 2 ^ 52).
    + apply Z.mul_le_mono_nonneg_r; lia.
    + replace ((Q + 1) * 2 ^ n * 2 ^ 52) with (((Q + 1) * 2 ^ 52) * 2 ^ n) by ring.
      replace (m2 * 2 ^ n * (2 ^ 52 + 1)) with ((m2 * (2 ^ 52 + 1)) * 2 ^ n) by ring.
      apply Z.mul_le_mono_nonneg_r; lia.
  - assert (H1 : m2 * 2 ^ 52 <= Q * (2 ^ 52 + 1)) by lia.
    apply Z.le_trans with (Q * (2 ^ 52 + 1) * 2 ^ n).
    + replace (m2 * 2 ^ n * 2 ^ 52) with ((m2 * 2 ^ 52) * 2 ^ n) by ring.
      apply Z.mul_le_mono_nonneg_r; lia.
    + replace (Q * (2 ^ 52 + 1) * 2 ^ n) with ((Q * 2 ^ n) * (2 ^ 52 + 1)) by ring.
      apply Z.mul_le_mono_nonneg_r; lia.
Qed.

Lemma of_int_normal (n : Z) :
  0 < n < 2 ^ 53 ->
  exists (m : positive) (k : Z),
    Float64.of_int n = Ok (S754_finite false m (- k))
    /\ k = 53 - Zdigits2 n
    /\ Zpos m = n * 2 ^ k /\ 0 <= k <= 52 /\ 2 ^ 52 <= Zpos m < 2 ^ 53.
Proof.
  intros Hn. destruct (binary_normalize_exact n Hn) as (m & k & Hb & Hrest).
  exists m, k. unfold Float64.of_int. rewrite Hb. auto.
Qed.

Lemma Zdigits2_le (a b : Z) : 0 < a -> a <= b -> Zdigits2 a <= Zdigits2 b.
Proof.
  intros Ha Hab. rewrite !Zdigits2_log2 by lia.
  pose proof (Z.log2_le_mono a b Hab). lia.
Qed.

(** ** The computed height of a source much wider than high *)


Lemma shiftl_neg_div (m j : Z) : 0 < j -> Z.shiftl m (- j) = m / 2 ^ j.
Proof.
  intros Hj. rewrite <- Z.shiftr_opp_r, Z.opp_involutive.
  apply Z.shiftr_div_pow2. lia.
Qed.

(** ** The computed height against the exact quotient *)

(** For sides in the range of the imaging library and [h * t] below
    [2^50], the computed height [int(h * (t / float(w)))] is the floor of
    [h * t / w], or one less. *)
Lemma new_height_bounds (w h t : Z) :
  0 < t -> t < w -> w < 2 ^ 31 -> 0 <= h -> h * t < 2 ^ 50 ->
  exists nh,
    new_height w h t = Ok nh
    /\ 0 <= nh /\ nh * w <= h * t /\ h * t < (nh + 2) * w.
Proof.
  intros Ht Htw Hw Hh Hht. unfold new_height.
  destruct (of_int_normal w) as (mw & kw & -> & Hkw & Hmw & Hkwb & Hmwb); [lia|].
  destruct (of_int_normal t) as (mt & kt & -> & Hkt & Hmt & Hktb & Hmtb); [lia|].
  cbn [rbind]. unfold Float64.truediv. cbn [Float64.is_zero rbind].
  assert (Hkk : kw <= kt).
  { pose proof (Zdigits2_le t w Ht ltac:(lia)). lia. }
  destruct (SFdiv_bounds mt mw kt kw)
    as (mr & K & -> & Hmrb & HK & Hup & Hlo); try lia.
  destruct (Z.eq_dec h 0) as [->|Hh0].
  { exists 0. split; [reflexivity|]. lia. }
  assert (Hh50 : h < 2 ^ 50) by nia.
  destruct (of_int_normal h) as (mh & kh & -> & Hkh & Hmh & Hkhb & Hmhb); [lia|].
  cbn [rbind]. unfold Float64.mul.
  destruct (SFmul_bounds mh mr kh K)
    as (m' & e' & m2 & n & -> & Hn & Hm2 & Hsh & HL & HU); try lia.
  unfold Float64.to_int. cbn [cond_Zopp]. rewrite Hsh.
  assert (HA : 0 < 2 ^ kt) by (apply Z.pow_pos_nonneg; lia).
  assert (HB : 0 < 2 ^ kw) by (apply Z.pow_pos_nonneg; lia).
  assert (HC : 0 < 2 ^ kh) by (apply Z.pow_pos_nonneg; lia).
  assert (HPK : 0 < 2 ^ K) by (apply Z.pow_pos_nonneg; lia).
  assert (HN : 0 < 2 ^ n) by (apply Z.pow_pos_nonneg; lia).
  (* the quotient, freed of the scaling of the two operands *)
  assert (Hup' : Zpos mr * w * 2 ^ 52 <= t * (2 ^ 52 + 1) * 2 ^ K).
  { rewrite Hmw, Hmt in Hup.
    apply Z.mul_le_mono_pos_r with (p := 2 ^ kt * 2 ^ kw); [lia|].
    replace (Zpos mr * w * 2 ^ 52 * (2 ^ kt * 2 ^ kw))
      with (Zpos mr * (w * 2 ^ kw) * 2 ^ kt * 2 ^ 52) by ring.
    replace (t * (2 ^ 52 + 1) * 2 ^ K * (2 ^ kt * 2 ^ kw))
      with (t * 2 ^ kt * 2 ^ kw * (2 ^ 52 + 1) * 2 ^ K) by ring.
    exact Hup. }
  assert (Hlo' : t * 2 ^ K * 2 ^ 52 <= Zpos mr * w * (2 ^ 52 + 1)).
  { rewrite Hmw, Hmt in Hlo.
    apply Z.mul_le_mono_pos_r with (p := 2 ^ kt * 2 ^ kw); [lia|].
    replace (t * 2 ^ K * 2 ^ 52 * (2 ^ kt * 2 ^ kw))
      with (t * 2 ^ kt * 2 ^ kw * 2 ^ K * 2 ^ 52) by ring.
    replace (Zpos mr * w * (2 ^ 52 + 1) * (2 ^ kt * 2 ^ kw))
      with (Zpos mr * (w * 2 ^ kw) * 2 ^ kt * (2 ^ 52 + 1)) by ring.
    exact Hlo. }
  clear Hup Hlo.
  (* the rounded product against [h * t / w], scaled by [2^(kh + K)] *)
  rewrite Hmh in HL, HU.
  assert (CU : m2 * 2 ^ n * (w * 2 ^ 104)
               <= (h * t) * ((2 ^ 104 + 2 ^ 53 + 1) * (2 ^ kh * 2 ^ K))).
  { apply Z.le_trans with (h * 2 ^ kh * (2 ^ 52 + 1) * (Zpos mr * w * 2 ^ 52)).
    - replace (m2 * 2 ^ n * (w * 2 ^ 104))
        with ((m2 * 2 ^ n * 2 ^ 52) * (w * 2 ^ 52)) by ring.
      replace (h * 2 ^ kh * (2 ^ 52 + 1) * (Zpos mr * w * 2 ^ 52))
        with ((h * 2 ^ kh * Zpos mr * (2 ^ 52 + 1)) * (w * 2 ^ 52)) by ring.
      apply Z.mul_le_mono_nonneg_r; lia.
    - replace ((h * t) * ((2 ^ 104 + 2 ^ 53 + 1) * (2 ^ kh * 2 ^ K)))
        with (h * 2 ^ kh * (2 ^ 52 + 1) * (t * (2 ^ 52 + 1) * 2 ^ K)) by ring.
      apply Z.mul_le_mono_nonneg_l; [|exact Hup'].
      apply Z.mul_nonneg_nonneg; [|lia]. apply Z.mul_nonneg_nonneg; lia. }
  assert (CL : (h * t) * (2 ^ kh * 2 ^ K) * 2 ^ 104
               <= m2 * 2 ^ n * ((2 ^ 104 + 2 ^ 53 + 1) * w)).
  { apply Z.le_trans with ((h * 2 ^ kh * Zpos mr * 2 ^ 52) * (w * (2 ^ 52 + 1))).
    - replace ((h * t) * (2 ^ kh * 2 ^ K) * 2 ^ 104)
        with (h * 2 ^ kh * 2 ^ 52 * (t * 2 ^ K * 2 ^ 52)) by ring.
      replace ((h * 2 ^ kh * Zpos mr * 2 ^ 52) * (w * (2 ^ 52 + 1)))
        with (h * 2 ^ kh * 2 ^ 52 * (Zpos mr * w * (2 ^ 52 + 1))) by ring.
      apply Z.mul_le_mono_nonneg_l; [|exact Hlo'].
      apply Z.mul_nonneg_nonneg; [|lia]. apply Z.mul_nonneg_nonneg; lia.
    - replace (m2 * 2 ^ n * ((2 ^ 104 + 2 ^ 53 + 1) * w))
        with ((m2 * 2 ^ n * (2 ^ 52 + 1)) * (w * (2 ^ 52 + 1))) by ring.
      apply Z.mul_le_mono_nonneg_r; lia. }
  (* the product is far below [2^53]: its exponent is negative *)
  assert (HnK : n < kh + K).
  { destruct (Z.lt_ge_cases n (kh + K)) as [|Hge]; [assumption|exfalso].
    assert (HX : 2 ^ kh * 2 ^ K <= 2 ^ n).
    { rewrite <- Z.pow_add_r by lia. apply Z.pow_le_mono_r; lia. }
    assert (H1 : m2 * (2 ^ kh * 2 ^ K) * (w * 2 ^ 104)
                 <= (h * t) * ((2 ^ 104 + 2 ^ 53 + 1) * (2 ^ kh * 2 ^ K))).
    { apply Z.le_trans with (m2 * 2 ^ n * (w * 2 ^ 104)); [|exact CU].
      apply Z.mul_le_mono_nonneg_r; [lia|].
      apply Z.mul_le_mono_nonneg_l; lia. }
    replace (m2 * (2 ^ kh * 2 ^ K) * (w * 2 ^ 104))
      with ((m2 * (w * 2 ^ 104)) * (2 ^ kh * 2 ^ K)) in H1 by ring.
    replace ((h * t) * ((2 ^ 104 + 2 ^ 53 + 1) * (2 ^ kh * 2 ^ K)))
      with (((h * t) * (2 ^ 104 + 2 ^ 53 + 1)) * (2 ^ kh * 2 ^ K)) in H1 by ring.
    apply Z.mul_le_mono_pos_r in H1; [|lia]. nia. }
  set (j := kh + K - n).
  assert (Hj : 2 ^ kh * 2 ^ K = 2 ^ j * 2 ^ n).
  { rewrite <- !Z.pow_add_r by (unfold j; lia). f_equal. unfold j. lia. }
  assert (HJ : 0 < 2 ^ j) by (apply Z.pow_pos_nonneg; unfold j; lia).
  replace (n - kh - K) with (- j) by (unfold j; lia).
  rewrite shiftl_neg_div by (unfold j; lia).
  set (nh := m2 / 2 ^ j).
  assert (Hnh1 : nh * 2 ^ j <= m2).
  { unfold nh. rewrite Z.mul_comm. apply Z.mul_div_le. lia. }
  assert (Hnh2 : m2 < (nh + 1) * 2 ^ j) by (unfold nh; apply div_succ_gt; lia).
  assert (Hnh0 : 0 <= nh) by (unfold nh; apply Z.div_pos; lia).
  rewrite Hj in CU, CL.
  assert (CU' : m2 * (w * 2 ^ 104) <= (h * t) * (2 ^ 104 + 2 ^ 53 + 1) * 2 ^ j).
  { apply Z.mul_le_mono_pos_r with (p := 2 ^ n); [lia|].
    replace (m2 * (w * 2 ^ 104) * 2 ^ n) with (m2 * 2 ^ n * (w * 2 ^ 104)) by ring.
    replace ((h * t) * (2 ^ 104 + 2 ^ 53 + 1) * 2 ^ j * 2 ^ n)
      with ((h * t) * ((2 ^ 104 + 2 ^ 53 + 1) * (2 ^ j * 2 ^ n))) by ring.
    exact CU. }
  assert (CL' : (h * t) * 2 ^ 104 * 2 ^ j <= m2 * ((2 ^ 104 + 2 ^ 53 + 1) * w)).
  { apply Z.mul_le_mono_pos_r with (p := 2 ^ n); [lia|].
    replace ((h * t) * 2 ^ 104 * 2 ^ j * 2 ^ n)
      with ((h * t) * (2 ^ j * 2 ^ n) * 2 ^ 104) by ring.
    replace (m2 * ((2 ^ 104 + 2 ^ 53 + 1) * w) * 2 ^ n)
      with (m2 * 2 ^ n * ((2 ^ 104 + 2 ^ 53 + 1) * w)) by ring.
    exact CL. }
  assert (Hupper : nh * w <= h * t).
  { assert (H1 : (nh * w) * 2 ^ 104 * 2 ^ j
                 <= (h * t) * (2 ^ 104 + 2 ^ 53 + 1) * 2 ^ j).
    { apply Z.le_trans with (m2 * (w * 2 ^ 104)); [|exact CU'].
      replace ((nh * w) * 2 ^ 104 * 2 ^ j) with ((nh * 2 ^ j) * (w * 2 ^ 104)) by ring.
      apply Z.mul_le_mono_nonneg_r; lia. }
    apply Z.mul_le_mono_pos_r in H1; [|lia].
    assert (0 <= h * t) by nia. lia. }
  exists nh. split; [reflexivity|]. split; [exact Hnh0|]. split; [exact Hupper|].
  assert (H2 : (h * t) * 2 ^ 104 * 2 ^ j
               < ((nh + 1) * w) * (2 ^ 104 + 2 ^ 53 + 1) * 2 ^ j).
  { apply Z.le_lt_trans with (m2 * ((2 ^ 104 + 2 ^ 53 + 1) * w)); [exact CL'|].
    replace (((nh + 1) * w) * (2 ^ 104 + 2 ^ 53 + 1) * 2 ^ j)
      with (((nh + 1) * 2 ^ j) * ((2 ^ 104 + 2 ^ 53 + 1) * w)) by ring.
    apply Z.mul_lt_mono_pos_r; lia. }
  apply Z.mul_lt_mono_pos_r in H2; [|lia].
  assert (0 <= nh * w) by nia.
  replace ((nh + 1) * w) with (nh * w + w) in H2 by ring.
  replace ((nh + 2) * w) with (nh * w + 2 * w) by ring.
  lia.
Qed.

Lemma new_height_zero (w h t : Z) :
  0 < t -> t < w -> w < 2 ^ 31 -> 0 <= h -> h * t < w ->
  new_height w h t = Ok 0.
Proof.
  intros Ht Htw Hw Hh Hht.
  destruct (new_height_bounds w h t) as (nh & -> & Hnh0 & Hnh & _); try lia.
  f_equal. nia.
Qed.

(** C10. For an image wider than a positive target [t] whose height [h]
    satisfies [h * t < w] (sides within the range of the imaging
    library), the computed height [int(h * (t / float(w)))] is 0; the
    resize is then asked for a [t] by 0 image, which the library refuses:
    positive dimensions of the input do not guarantee a positive height
    of the result. *)
Theorem zero_height_when_much_wider (img : Image) (t : Z) :
  0 < t -> t < width img -> width img < 2 ^ 31 ->
  0 <= height img -> height img * t < width img ->
  new_height (width img) (height img) t = Ok 0
  /\ resize_by_width img t = Raise (ValueError "height and width must be > 0").
Proof.
  intros Ht Htw Hw Hh Hht.
  pose proof (new_height_zero _ _ _ Ht Htw Hw Hh Hht) as Hz.
  split; [exact Hz|].
  unfold resize_by_width, width, height in *.
  destruct (size img) as [w h] eqn:Hsz. simpl in *.
  destruct (Z.leb_spec w t); [lia|].
  rewrite Hz. cbn [rbind]. unfold resize, width, height. rewrite Hsz. simpl.
  destruct (Z.eqb_spec t w); [lia|]. simpl.
  destruct (t <? 1); reflexivity.
Qed.

Lemma zero_height_when_much_wider_witness :
  new_height 2000 1 1600 = Ok 0
  /\ resize_by_width (mkImage RGB (2000, 1) [] (Samples 3)) 1600
     = Raise (ValueError "height and width must be > 0").
Proof.
  apply (zero_height_when_much_wider (mkImage RGB (2000, 1) [] (Samples 3)) 1600);
    vm_compute; (reflexivity || discriminate).
Defined.

(** C2, as the script has it. For an image wider than the target the
    result, when there is one, is exactly [t] wide and
    [int(h * (t / float(w)))] high -- the binary64 product cut toward
    zero, not rounded -- and there is one exactly when both sides are at
    least 1. For sides in the range of the imaging library and [h * t]
    below [2^50] that height is the floor of [h * t / w] or one less. A
    1200 by 800 source resized to width 400 is 400 by 266. *)
Theorem resize_by_width_truncates (img : Image) (t : Z) :
  t < width img ->
  (forall r,
      resize_by_width img t = Ok r <->
      exists nh,
        new_height (width img) (height img) t = Ok nh
        /\ 1 <= t /\ 1 <= nh
        /\ r = mkImage (mode img) (t, nh) (info img)
                       (Resampled LANCZOS (t, nh) (px img)))
  /\ (0 < t -> width img < 2 ^ 31 ->
      0 <= height img -> height img * t < 2 ^ 50 ->
      exists nh,
        new_height (width img) (height img) t = Ok nh
        /\ height img * t / width img - 1 <= nh <= height img * t / width img)
  /\ new_height 1200 800 400 = Ok 266.
Proof.
  intros Hlt. split; [|split; [|reflexivity]].
  - intros r. split.
    + now apply resize_by_width_wide.
    + intros (nh & Hnh & Ht & Hn & ->).
      unfold resize_by_width, width, height in *.
      destruct (size img) as [w h] eqn:Hsz. simpl in *.
      destruct (Z.leb_spec w t); [lia|].
      rewrite Hnh. cbn [rbind]. unfold resize, width, height. rewrite Hsz. simpl.
      destruct (Z.eqb_spec t w); [lia|]. simpl.
      destruct (Z.ltb_spec t 1); [lia|].
      destruct (Z.ltb_spec nh 1); [lia|]. reflexivity.
  - intros Ht Hw Hh Hht.
    destruct (new_height_bounds _ _ _ Ht Hlt Hw Hh Hht) as (nh & Hnh & _ & Hle & Hgt).
    exists nh. split; [exact Hnh|]. split.
    + assert (height img * t / width img < nh + 2)
        by (apply Z.div_lt_upper_bound; lia).
      lia.
    + apply Z.div_le_lower_bound; lia.
Qed.

Lemma resize_by_width_truncates_witness :
  resize_by_width cat_image 400
  = Ok (mkImage RGB (400, 266) [("exif", "Orientation=6")]%string
                (Resampled LANCZOS (400, 266) (Samples 0))).
Proof.
  apply (proj1 (resize_by_width_truncates cat_image 400 ltac:(vm_compute; reflexivity))).
  exists 266. repeat split; vm_compute; (reflexivity || discriminate).
Defined.

(** C2 as stated fails: rounding the product gives 267 for the 1200 by
    800 source, and the script produces a thumbnail 266 high. *)
Lemma cat_thumbnail_is_266_high :
  rounded_height 1200 800 400 = Ok 267
  /\ resize_by_width (mkImage RGB (1200, 800) [] (Samples 0)) 400
     = Ok (mkImage RGB (400, 266) [] (Resampled LANCZOS (400, 266) (Samples 0)))
  /\ ~ (forall img t r nh,
          t < width img -> resize_by_width img t = Ok r ->
          rounded_height (width img) (height img) t = Ok nh ->
          size r = (t, nh)).
Proof.
  split; [reflexivity|]. split; [reflexivity|].
  intros H.
  specialize (H (mkImage RGB (1200, 800) [] (Samples 0)) 400 _ 267
                ltac:(vm_compute; reflexivity) eq_refl eq_refl).
  discriminate H.
Qed.

(* ===================================================================== *)
(** * Further properties of the script *)
(* ===================================================================== *)

(** ** The two root directories *)

(** X1. When one of the two root directories cannot be made, [main]
    ends by that exception: nothing catches it, no file is looked at, and
    the log holds at most the first root. *)
Theorem roots_failure_is_fatal cfg env :
  (forall e, mkdir env (OUT_DIR cfg) = Some e ->
             main cfg env = ([], Raise e))
  /\ (forall e, mkdir env (OUT_DIR cfg) = None ->
                mkdir env (THUMB_DIR cfg) = Some e ->
                main cfg env = ([MadeDir (OUT_DIR cfg)], Raise e)).
Proof.
  split.
  - intros e H. unfold main, ensure_dirs, do_mkdir. rewrite H. reflexivity.
  - intros e H1 H2. unfold main, ensure_dirs, do_mkdir. rewrite H1.
    rewrite bind_emit. rewrite H2. reflexivity.
Qed.

Lemma roots_failure_is_fatal_witness :
  main default_config no_disk_env = ([], Raise (OSError "Permission denied")).
Proof.
  apply (proj1 (roots_failure_is_fatal default_config no_disk_env)). reflexivity.
Defined.

(** ** One line per file *)

Lemma process_one_notice_count cfg env src :
  count_notices (fst (process_one cfg env src)) = if supported src then 1%nat else 0%nat.
Proof.
  unfold count_notices, supported. unfold_script.
  repeat (cbn in *; break_match); cbn in *; try reflexivity; try discriminate.
Qed.

Lemma count_notices_app (l1 l2 : list Event) :
  count_notices (l1 ++ l2) = (count_notices l1 + count_notices l2)%nat.
Proof. unfold count_notices. now rewrite filter_app, length_app. Qed.

Lemma count_notices_walk cfg env (l : list Path) :
  count_notices (flat_map (fun p => fst (process_one cfg env p)) l)
  = List.length (filter supported l).
Proof.
  induction l as [|x l IH]; simpl; [reflexivity|].
  rewrite count_notices_app, IH, process_one_notice_count.
  destruct (supported x); reflexivity.
Qed.

Lemma ensure_dirs_ok cfg env l0 :
  ensure_dirs cfg env = (l0, Ok tt) ->
  l0 = [MadeDir (OUT_DIR cfg); MadeDir (THUMB_DIR cfg)].
Proof.
  unfold ensure_dirs, do_mkdir.
  destruct (mkdir env (OUT_DIR cfg)); [discriminate|].
  rewrite bind_emit.
  destruct (mkdir env (THUMB_DIR cfg)); [discriminate|].
  simpl. intros H; inversion H; reflexivity.
Qed.

(** X2. [process_one] prints exactly one line for a path with a supported
    extension -- the warning, the success line or the failure line --
    and none for any other path. Hence, once the two root directories
    exist, a run of [main] prints as many lines as the walk yields files
    with a supported extension. *)
Theorem one_notice_per_supported_file cfg env :
  (forall src,
      count_notices (fst (process_one cfg env src))
      = if supported src then 1%nat else 0%nat)
  /\ (forall l0,
        ensure_dirs cfg env = (l0, Ok tt) ->
        count_notices (fst (main cfg env))
        = List.length (filter supported (walked_files cfg env))).
Proof.
  split; [apply process_one_notice_count|].
  intros l0 Hd. rewrite (main_log cfg env l0 Hd). simpl.
  rewrite count_notices_app, count_notices_walk.
  rewrite (ensure_dirs_ok cfg env l0 Hd). reflexivity.
Qed.

Lemma one_notice_per_supported_file_witness :
  count_notices (fst (main default_config sample_env)) = 5%nat.
Proof.
  apply (proj2 (one_notice_per_supported_file default_config sample_env)
           [MadeDir (rel_path ["images_optimized"]%string);
            MadeDir (rel_path ["images_optimized"; "thumbs"]%string)]).
  reflexivity.
Defined.

(** X3. A success line is printed only after the whole output set has
    been written: the log is then the two directories, the hi-res JPEG,
    the thumbnail at quality 70, the WebP copy of the hi-res image when
    [MAKE_WEBP] is on, and the success line, in this order and nothing
    else. *)
Theorem done_means_complete_set cfg env src s p b :
  In (Printed (Done s p b)) (fst (process_one cfg env src)) ->
  exists rel p_hi p_webp p_thumb img0 img hi thumb,
    relative_to src (SRC_DIR cfg) = Ok rel
    /\ out_hi cfg rel = Ok p_hi
    /\ out_webp cfg rel = Ok p_webp
    /\ out_thumb cfg rel = Ok p_thumb
    /\ image_open env src = Ok img0
    /\ normalised cfg img0 = Ok img
    /\ resize_by_width img (MAX_WIDTH_HI cfg) = Ok hi
    /\ resize_by_width img (THUMB_WIDTH cfg) = Ok thumb
    /\ s = src /\ p = p_hi /\ b = MAKE_WEBP cfg
    /\ process_one cfg env src
       = ([MadeDir (parent p_hi); MadeDir (parent p_thumb);
           Wrote p_hi (jpeg_params (JPEG_QUALITY cfg)) hi;
           Wrote p_thumb (jpeg_params 70) thumb]
          ++ (if MAKE_WEBP cfg
              then [Wrote p_webp (webp_params (WEBP_QUALITY cfg)) hi]
              else [])
          ++ [Printed (Done src p_hi (MAKE_WEBP cfg))],
          Ok tt).
Proof.
  unfold_script.
  repeat (cbn in *; break_match); cbn in *; intros H.
  all: repeat match goal with
         | H : _ \/ _ |- _ => destruct H
         | H : False |- _ => destruct H
         | H : Printed _ = Printed _ |- _ => inversion H; subst; clear H
         | H : _ = _ |- _ => discriminate H
         end.
  all: do 8 eexists; repeat split; try reflexivity; eauto.
Qed.

Lemma done_means_complete_set_witness :
  exists rel p_hi p_webp p_thumb img0 img hi thumb,
    relative_to (images ["a"; "cat.png"]%string) (SRC_DIR default_config) = Ok rel
    /\ out_hi default_config rel = Ok p_hi
    /\ out_webp default_config rel = Ok p_webp
    /\ out_thumb default_config rel = Ok p_thumb
    /\ image_open sample_env (images ["a"; "cat.png"]%string) = Ok img0
    /\ normalised default_config img0 = Ok img
    /\ resize_by_width img (MAX_WIDTH_HI default_config) = Ok hi
    /\ resize_by_width img (THUMB_WIDTH default_config) = Ok thumb
    /\ images ["a"; "cat.png"]%string = images ["a"; "cat.png"]%string
    /\ rel_path ["images_optimized"; "a"; "cat.jpg"]%string = p_hi
    /\ true = MAKE_WEBP default_config
    /\ process_one default_config sample_env (images ["a"; "cat.png"]%string)
       = ([MadeDir (parent p_hi); MadeDir (parent p_thumb);
           Wrote p_hi (jpeg_params (JPEG_QUALITY default_config)) hi;
           Wrote p_thumb (jpeg_params 70) thumb]
          ++ (if MAKE_WEBP default_config
              then [Wrote p_webp (webp_params (WEBP_QUALITY default_config)) hi]
              else [])
          ++ [Printed (Done (images ["a"; "cat.png"]%string) p_hi
                            (MAKE_WEBP default_config))],
          Ok tt).
Proof.
  apply (done_means_complete_set default_config sample_env
           (images ["a"; "cat.png"]%string)).
  vm_compute. repeat first [left; reflexivity | right].
Defined.

(** ** What is handed to the encoders *)

Lemma resize_by_width_keeps (img r : Image) (t : Z) :
  resize_by_width img t = Ok r -> mode r = mode img /\ info r = info img.
Proof.
  intros H. destruct (Z.le_gt_cases (width img) t) as [Hle|Hgt].
  - rewrite (resize_by_width_narrow _ _ Hle) in H. inversion H; auto.
  - destruct (resize_by_width_wide _ _ _ Hgt H) as (nh & _ & _ & _ & ->). auto.
Qed.

Lemma strip_exif_fresh (img r : Image) :
  strip_exif img = Ok r -> info r = [] /\ rgb_or_rgba (mode r) = true.
Proof.
  unfold strip_exif, new.
  destruct (rgb_or_rgba (mode img)) eqn:Hm; simpl;
    destruct (_ || _); simpl; try discriminate;
    intros H; inversion H; simpl; auto.
Qed.

Lemma normalised_mode cfg (img r : Image) :
  normalised cfg img = Ok r -> rgb_or_rgba (mode r) = true.
Proof.
  unfold normalised. destruct (STRIP_EXIF cfg).
  - intros H. now apply strip_exif_fresh in H.
  - destruct (rgb_or_rgba (mode img)) eqn:Hm; simpl;
      intros H; inversion H; subst; simpl; auto.
Qed.

(** X4. Every file is saved with one of three parameter sets: the JPEG
    set (optimised, progressive, 4:2:0) at [JPEG_QUALITY] for the hi-res
    path, the same set at the fixed quality 70 for the thumbnail path --
    whatever [JPEG_QUALITY] is -- and format WEBP at [WEBP_QUALITY] with
    method 6 for the alternate path. *)
Theorem encoder_parameters cfg env src p params out :
  In (Wrote p params out) (fst (process_one cfg env src)) ->
  exists rel,
    relative_to src (SRC_DIR cfg) = Ok rel
    /\ ((out_hi cfg rel = Ok p
         /\ params = mkSaveParams JPEG (JPEG_QUALITY cfg) (Some true) (Some true)
                                  (Some "4:2:0"%string) None)
        \/ (out_thumb cfg rel = Ok p
            /\ params = mkSaveParams JPEG 70 (Some true) (Some true)
                                     (Some "4:2:0"%string) None)
        \/ (out_webp cfg rel = Ok p
            /\ params = mkSaveParams WEBP (WEBP_QUALITY cfg) None None None (Some 6))).
Proof.
  intros Hin.
  destruct (process_one_wrote _ _ _ _ _ _ Hin)
    as (rel & p_hi & p_webp & p_thumb & img0 & img & hi
        & Hrel & Hhi & Hwebp & Hthumb & _ & _ & _ & _ & Hcase).
  exists rel. split; [exact Hrel|].
  destruct Hcase as [(-> & -> & _)|[(-> & -> & _)|(-> & -> & _)]]; auto.
Qed.

Lemma encoder_parameters_witness :
  exists rel,
    relative_to (images ["a"; "cat.png"]%string) (SRC_DIR default_config) = Ok rel
    /\ ((out_hi default_config rel
         = Ok (rel_path ["images_optimized"; "thumbs"; "a"; "cat.jpg"]%string)
         /\ jpeg_params 70
            = mkSaveParams JPEG (JPEG_QUALITY default_config) (Some true) (Some true)
                           (Some "4:2:0"%string) None)
        \/ (out_thumb default_config rel
            = Ok (rel_path ["images_optimized"; "thumbs"; "a"; "cat.jpg"]%string)
            /\ jpeg_params 70
               = mkSaveParams JPEG 70 (Some true) (Some true) (Some "4:2:0"%string) None)
        \/ (out_webp default_config rel
            = Ok (rel_path ["images_optimized"; "thumbs"; "a"; "cat.jpg"]%string)
            /\ jpeg_params 70
               = mkSaveParams WEBP (WEBP_QUALITY default_config) None None None (Some 6))).
Proof.
  apply (encoder_parameters default_config sample_env (images ["a"; "cat.png"]%string)
           _ _ (mkImage RGB (400, 266) [] (Resampled LANCZOS (400, 266) (Samples 0)))).
  vm_compute. repeat first [left; reflexivity | right].
Defined.

(** X5. Whatever the decoded mode and whether or not metadata is
    stripped, every image handed to an encoder is in mode RGB or RGBA,
    and has the pixel dimensions of the decoded source or smaller in
    width. *)
Theorem written_images_are_rgb_or_rgba cfg env src p params out :
  In (Wrote p params out) (fst (process_one cfg env src)) ->
  (mode out = RGB \/ mode out = RGBA)
  /\ exists img0, image_open env src = Ok img0 /\ width out <= width img0.
Proof.
  intros Hin.
  destruct (process_one_wrote _ _ _ _ _ _ Hin)
    as (rel & p_hi & p_webp & p_thumb & img0 & img & hi
        & _ & _ & _ & _ & Hopen & Hnorm & Hres & _ & Hcase).
  pose proof (normalised_mode _ _ _ Hnorm) as Hm.
  pose proof (normalised_size _ _ _ Hnorm) as Hsz.
  assert (Hout : exists t, resize_by_width img t = Ok out).
  { destruct Hcase as [(_ & _ & ->)|[(_ & _ & H)|(_ & _ & -> & _)]]; eauto. }
  destruct Hout as [t Hout].
  destruct (resize_by_width_keeps _ _ _ Hout) as [Hmode _].
  split.
  - rewrite Hmode. unfold rgb_or_rgba in Hm.
    destruct (mode img); simpl in Hm; try discriminate; auto.
  - exists img0. split; [exact Hopen|].
    destruct (resize_by_width_le _ _ _ Hout) as (Hle & Hsame & Hwide).
    unfold width in *. rewrite <- Hsz.
    destruct (Z.le_gt_cases (fst (size img)) t) as [H|H].
    + rewrite (Hsame H). lia.
    + rewrite (Hwide H). lia.
Qed.

Lemma written_images_are_rgb_or_rgba_witness :
  (mode (mkImage RGB (64, 64) [] (Converted RGB (Samples 2))) = RGB
   \/ mode (mkImage RGB (64, 64) [] (Converted RGB (Samples 2))) = RGBA)
  /\ exists img0,
       image_open sample_env (images ["logo.png"]%string) = Ok img0
       /\ width (mkImage RGB (64, 64) [] (Converted RGB (Samples 2))) <= width img0.
Proof.
  apply (written_images_are_rgb_or_rgba default_config sample_env
           (images ["logo.png"]%string)
           (rel_path ["images_optimized"; "logo.jpg"]%string) (jpeg_params 85)).
  vm_compute. repeat first [left; reflexivity | right].
Defined.

(** X6. With [STRIP_EXIF] on, no image handed to an encoder carries any
    metadata entry. With it off, a source decoded in mode RGB or RGBA
    keeps its metadata entries in every image written. *)
Theorem metadata_of_written_images cfg env src p params out :
  In (Wrote p params out) (fst (process_one cfg env src)) ->
  (STRIP_EXIF cfg = true -> info out = [])
  /\ (STRIP_EXIF cfg = false ->
      forall img0, image_open env src = Ok img0 ->
                   rgb_or_rgba (mode img0) = true -> info out = info img0).
Proof.
  intros Hin.
  destruct (process_one_wrote _ _ _ _ _ _ Hin)
    as (rel & p_hi & p_webp & p_thumb & img0 & img & hi
        & _ & _ & _ & _ & Hopen & Hnorm & Hres & _ & Hcase).
  assert (Hout : exists t, resize_by_width img t = Ok out).
  { destruct Hcase as [(_ & _ & ->)|[(_ & _ & H)|(_ & _ & -> & _)]]; eauto. }
  destruct Hout as [t Hout].
  destruct (resize_by_width_keeps _ _ _ Hout) as [_ Hinfo].
  unfold normalised in Hnorm. split.
  - intros Hs. rewrite Hs in Hnorm. rewrite Hinfo.
    now apply strip_exif_fresh in Hnorm.
  - intros Hs img0' Hopen' Hm. rewrite Hs in Hnorm.
    rewrite Hopen in Hopen'. inversion Hopen'; subst img0'.
    rewrite Hm in Hnorm. simpl in Hnorm. inversion Hnorm; subst img.
    exact Hinfo.
Qed.

Lemma metadata_of_written_images_witness :
  info (mkImage RGB (400, 266) [] (Resampled LANCZOS (400, 266) (Samples 0))) = [].
Proof.
  apply (proj1 (metadata_of_written_images default_config sample_env
                  (images ["a"; "cat.png"]%string)
                  (rel_path ["images_optimized"; "thumbs"; "a"; "cat.jpg"]%string)
                  (jpeg_params 70) _
                  ltac:(vm_compute; repeat first [left; reflexivity | right]))).
  reflexivity.
Defined.

(** ** Directories *)

Lemma parent_output_path cfg kind (rel p : Path) :
  anchor rel = ""%string ->
  output_path cfg kind rel = Ok p ->
  parent p = mkPath (anchor (OUT_DIR cfg))
                    (parts (OUT_DIR cfg) ++ subdir_of kind ++ removelast (parts rel)).
Proof.
  intros Hrel H. apply output_path_parts in H; [|assumption]. subst p.
  unfold parent; simpl. f_equal.
  rewrite app_assoc, removelast_last. reflexivity.
Qed.

Lemma parent_webp_is_parent_hi cfg (rel a b : Path) :
  anchor rel = ""%string ->
  out_hi cfg rel = Ok a -> out_webp cfg rel = Ok b -> parent b = parent a.
Proof.
  intros Hrel Ha Hb.
  rewrite (parent_output_path cfg HiRes rel a Hrel Ha).
  rewrite (parent_output_path cfg AltFormat rel b Hrel Hb). reflexivity.
Qed.

Ltac split_log_at k :=
  match goal with
  | |- exists l1 l2, ?L = l1 ++ ?ev :: l2 /\ _ =>
      exists (firstn k L), (skipn (S k) L); split; [reflexivity|]
  end.

(** X7. Every file is written into a directory that the same call has
    made before: the parent of the written path is among the directories
    made earlier in the log. This holds for the WebP copy too, whose
    directory is not made on its own: it is the directory of the hi-res
    file. *)
Theorem directory_made_before_write cfg env src p params out :
  In (Wrote p params out) (fst (process_one cfg env src)) ->
  exists l1 l2,
    fst (process_one cfg env src) = l1 ++ Wrote p params out :: l2
    /\ In (MadeDir (parent p)) l1.
Proof.
  unfold_script.
  repeat (cbn in *; break_match); cbn in *; intros H.
  all: repeat match goal with
         | H : _ \/ _ |- _ => destruct H
         | H : False |- _ => destruct H
         | H : Wrote _ _ _ = Wrote _ _ _ |- _ => inversion H; subst; clear H
         | H : _ = _ |- _ => discriminate H
         end.
  all: try match goal with
         | H1 : out_hi ?c ?r = Ok ?a, H2 : out_webp ?c ?r = Ok ?b,
           H3 : relative_to _ _ = Ok ?r |- _ =>
             pose proof (parent_webp_is_parent_hi c r a b
                           (relative_to_anchor _ _ _ H3) H1 H2) as Hpar
         end.
  all: first [ split_log_at 2%nat; cbn; rewrite ?Hpar; now auto
             | split_log_at 3%nat; cbn; rewrite ?Hpar; now auto
             | split_log_at 4%nat; cbn; rewrite ?Hpar; now auto ].
Qed.

Lemma directory_made_before_write_witness :
  exists l1 l2,
    fst (process_one default_config sample_env (images ["b"; "wide.jpg"]%string))
    = l1 ++ Wrote (rel_path ["images_optimized"; "b"; "wide.webp"]%string)
                  (webp_params 80)
                  (mkImage RGB (1600, 533) []
                           (Resampled LANCZOS (1600, 533) (Samples 1))) :: l2
    /\ In (MadeDir (parent (rel_path ["images_optimized"; "b"; "wide.webp"]%string))) l1.
Proof.
  apply directory_made_before_write.
  vm_compute. repeat first [left; reflexivity | right].
Defined.

(** ** Where the script writes *)

Lemma in_bind_log {A B} (m : M A) (k : A -> M B) (ev : Event) :
  In ev (fst (bind m k)) -> In ev (fst m) \/ exists a, In ev (fst (k a)).
Proof.
  unfold bind. destruct m as [l [a|e]]; simpl.
  - destruct (k a) as [l' r] eqn:Hk. simpl. intros H.
    apply in_app_or in H. destruct H as [H|H]; [left; exact H|].
    right. exists a. rewrite Hk. exact H.
  - auto.
Qed.

Lemma in_for_each_log {A} (l : list A) (body : A -> M unit) (ev : Event) :
  In ev (fst (for_each l body)) -> exists x, In x l /\ In ev (fst (body x)).
Proof.
  induction l as [|x l IH]; simpl; [contradiction|].
  intros H. apply in_bind_log in H. destruct H as [H|[_ H]].
  - exists x. auto.
  - destruct (IH H) as (y & Hy & Hev). exists y. auto.
Qed.

Lemma in_main_log cfg env (ev : Event) :
  In ev (fst (main cfg env)) ->
  In ev (fst (ensure_dirs cfg env))
  \/ exists src, In src (walked_files cfg env)
                 /\ In ev (fst (process_one cfg env src)).
Proof.
  unfold main. intros H. apply in_bind_log in H.
  destruct H as [H|[_ H]]; [left; exact H|right].
  apply in_for_each_log in H. destruct H as ([[root dirs] files] & Hw & H).
  apply in_for_each_log in H. destruct H as (f & Hf & H).
  exists (truediv root (rel_path [f])). split; [|exact H].
  unfold walked_files. apply in_flat_map.
  exists (root, dirs, files). split; [exact Hw|].
  apply (in_map (fun f => truediv root (rel_path [f]))). exact Hf.
Qed.

Lemma process_one_made_dir cfg env src p :
  In (MadeDir p) (fst (process_one cfg env src)) ->
  exists rel kind pp,
    relative_to src (SRC_DIR cfg) = Ok rel
    /\ output_path cfg kind rel = Ok pp
    /\ p = parent pp.
Proof.
  unfold_script.
  repeat (cbn in *; break_match); cbn in *; intros H.
  all: repeat match goal with
         | H : _ \/ _ |- _ => destruct H
         | H : False |- _ => destruct H
         | H : MadeDir _ = MadeDir _ |- _ => inversion H; subst; clear H
         | H : _ = _ |- _ => discriminate H
         end.
  all: first [ eexists _, HiRes, _; repeat split; simpl; now eauto
             | eexists _, Thumbnail, _; repeat split; simpl; now eauto ].
Qed.

Lemma output_path_under cfg kind (rel p : Path) :
  anchor rel = ""%string ->
  output_path cfg kind rel = Ok p ->
  is_under (OUT_DIR cfg) p /\ is_under (OUT_DIR cfg) (parent p).
Proof.
  intros Hrel H. split.
  - apply output_path_parts in H; [|assumption]. subst p.
    split; simpl; eauto.
  - rewrite (parent_output_path cfg kind rel p Hrel H).
    split; simpl; eauto.
Qed.

(** X8. Nothing is made or written outside the output root: every
    directory [main] makes and every file it writes is [OUT_DIR] itself
    or lies below it, whatever the walk yields and wherever the run
    stops. *)
Theorem writes_stay_under_the_output_root cfg env ev p :
  In ev (fst (main cfg env)) ->
  touched ev = Some p ->
  is_under (OUT_DIR cfg) p.
Proof.
  intros Hin Ht. apply in_main_log in Hin. destruct Hin as [Hin|(src & _ & Hin)].
  - (* the two roots *)
    assert (Hev : ev = MadeDir (OUT_DIR cfg) \/ ev = MadeDir (THUMB_DIR cfg)).
    { unfold ensure_dirs, do_mkdir in Hin.
      destruct (mkdir env (OUT_DIR cfg)); [destruct Hin|].
      rewrite bind_emit in Hin.
      destruct (mkdir env (THUMB_DIR cfg)); simpl in Hin; intuition auto. }
    destruct Hev as [-> | ->]; simpl in Ht; inversion Ht; subst p.
    + split; [reflexivity|]. exists []. now rewrite app_nil_r.
    + split; [reflexivity|]. exists ["thumbs"%string]. reflexivity.
  - destruct ev as [d|q params out|n]; simpl in Ht; inversion Ht; subst.
    + destruct (process_one_made_dir _ _ _ _ Hin) as (rel & kind & pp & Hrel & Hpp & ->).
      apply (output_path_under cfg kind rel pp); auto.
      eapply relative_to_anchor; eauto.
    + destruct (process_one_wrote _ _ _ _ _ _ Hin)
        as (rel & p_hi & p_webp & p_thumb & img0 & img & hi
            & Hrel & Hhi & Hwebp & Hthumb & _ & _ & _ & _ & Hcase).
      pose proof (relative_to_anchor _ _ _ Hrel) as Ha.
      destruct Hcase as [(-> & _)|[(-> & _)|(-> & _)]].
      * apply (output_path_under cfg HiRes rel p_hi); auto.
      * apply (output_path_under cfg Thumbnail rel p_thumb); auto.
      * apply (output_path_under cfg AltFormat rel p_webp); auto.
Qed.

Lemma writes_stay_under_the_output_root_witness :
  is_under (OUT_DIR default_config)
           (rel_path ["images_optimized"; "thumbs"; "a"; "cat.jpg"]%string).
Proof.
  apply (writes_stay_under_the_output_root default_config sample_env
           (Wrote (rel_path ["images_optimized"; "thumbs"; "a"; "cat.jpg"]%string)
                  (jpeg_params 70)
                  (mkImage RGB (400, 266) []
                           (Resampled LANCZOS (400, 266) (Samples 0))))).
  - vm_compute. repeat first [left; reflexivity | right].
  - reflexivity.
Defined.

(** ** The resize, in size *)

Lemma resize_by_width_shrinks (img r : Image) (t : Z) :
  0 < t -> t < width img -> width img < 2 ^ 31 ->
  0 <= height img -> height img * t < 2 ^ 50 ->
  resize_by_width img t = Ok r ->
  width r = t
  /\ 1 <= height r < height img
  /\ height r * width img <= height img * t < (height r + 2) * width img.
Proof.
  intros Ht Hlt Hw Hh Hht Hr.
  destruct (resize_by_width_wide _ _ _ Hlt Hr) as (nh & Hnh & _ & Hn1 & ->).
  destruct (new_height_bounds _ _ _ Ht Hlt Hw Hh Hht) as (nh' & Hnh' & _ & Hle & Hgt).
  rewrite Hnh in Hnh'. inversion Hnh'; subst nh'.
  unfold width, height in *; simpl. repeat split; try lia; nia.
Qed.

(** X9. The resize never enlarges: for a positive target and a source
    in the range of the imaging library, a result is no wider and no
    higher than the source, and it keeps the mode and the metadata of
    the source. *)
Theorem resize_by_width_never_enlarges (img r : Image) (t : Z) :
  0 < t -> width img < 2 ^ 31 ->
  0 <= height img -> height img * t < 2 ^ 50 ->
  resize_by_width img t = Ok r ->
  width r <= width img /\ height r <= height img
  /\ mode r = mode img /\ info r = info img.
Proof.
  intros Ht Hw Hh Hht Hr.
  destruct (resize_by_width_keeps _ _ _ Hr) as [Hm Hi].
  destruct (Z.le_gt_cases (width img) t) as [Hle|Hgt].
  - rewrite (resize_by_width_narrow _ _ Hle) in Hr. inversion Hr; subst.
    repeat split; auto; lia.
  - destruct (resize_by_width_shrinks _ _ _ Ht Hgt Hw Hh Hht Hr) as (Hw' & Hh' & _).
    repeat split; auto; lia.
Qed.

Lemma resize_by_width_never_enlarges_witness :
  width (mkImage RGB (1600, 533) [] (Resampled LANCZOS (1600, 533) (Samples 1)))
  <= width wide_image
  /\ height (mkImage RGB (1600, 533) [] (Resampled LANCZOS (1600, 533) (Samples 1)))
     <= height wide_image
  /\ mode (mkImage RGB (1600, 533) [] (Resampled LANCZOS (1600, 533) (Samples 1)))
     = mode wide_image
  /\ info (mkImage RGB (1600, 533) [] (Resampled LANCZOS (1600, 533) (Samples 1)))
     = info wide_image.
Proof.
  apply (resize_by_width_never_enlarges wide_image _ 1600);
    vm_compute; (reflexivity || discriminate).
Defined.

(** X10. A source wider than the target whose height is at least twice
    the reduction factor ([2 * w <= h * t]) is always resized: the
    result is exactly [t] wide, at least 1 and less than the source
    high, and its height is below the exact [h * t / w] by less than 2. *)
Theorem resize_by_width_succeeds (img : Image) (t : Z) :
  0 < t -> t < width img -> width img < 2 ^ 31 ->
  2 * width img <= height img * t -> height img * t < 2 ^ 50 ->
  exists r,
    resize_by_width img t = Ok r
    /\ width r = t
    /\ 1 <= height r < height img
    /\ height r * width img <= height img * t < (height r + 2) * width img.
Proof.
  intros Ht Hlt Hw Hlo Hht.
  assert (Hh : 0 <= height img) by nia.
  destruct (new_height_bounds _ _ _ Ht Hlt Hw Hh Hht) as (nh & Hnh & _ & Hle & Hgt).
  assert (Hn1 : 1 <= nh) by nia.
  assert (Hr : resize_by_width img t
               = Ok (mkImage (mode img) (t, nh) (info img)
                             (Resampled LANCZOS (t, nh) (px img)))).
  { unfold resize_by_width, width, height in *.
    destruct (size img) as [w h] eqn:Hsz. simpl in *.
    destruct (Z.leb_spec w t); [lia|].
    rewrite Hnh. cbn [rbind]. unfold resize, width, height. rewrite Hsz. simpl.
    destruct (Z.eqb_spec t w); [lia|]. simpl.
    destruct (Z.ltb_spec t 1); [lia|].
    destruct (Z.ltb_spec nh 1); [lia|]. reflexivity. }
  eexists. split; [exact Hr|].
  apply (resize_by_width_shrinks img _ t); auto.
Qed.

Lemma resize_by_width_succeeds_witness :
  exists r,
    resize_by_width wide_image 400 = Ok r
    /\ width r = 400
    /\ 1 <= height r < height wide_image
    /\ height r * width wide_image <= height wide_image * 400
       < (height r + 2) * width wide_image.
Proof.
  apply (resize_by_width_succeeds wide_image 400);
    vm_compute; (reflexivity || discriminate).
Defined.

(** ** Sources too flat for a cap *)

Lemma resize_by_width_too_flat (img : Image) (t : Z) :
  0 < t -> t < width img -> width img < 2 ^ 31 ->
  0 <= height img -> height img * t < width img ->
  resize_by_width img t = Raise (ValueError "height and width must be > 0").
Proof.
  intros Ht Htw Hw Hh Hht.
  pose proof (new_height_zero _ _ _ Ht Htw Hw Hh Hht) as Hz.
  unfold resize_by_width, width, height in *.
  destruct (size img) as [w h] eqn:Hsz. simpl in *.
  destruct (Z.leb_spec w t); [lia|].
  rewrite Hz. cbn [rbind]. unfold resize, width, height. rewrite Hsz. simpl.
  destruct (Z.eqb_spec t w); [lia|]. simpl.
  destruct (t <? 1); reflexivity.
Qed.

Lemma normalised_ok cfg (img : Image) :
  0 <= width img -> 0 <= height img ->
  exists r, normalised cfg img = Ok r /\ size r = size img.
Proof.
  intros Hw Hh. unfold normalised. destruct (STRIP_EXIF cfg).
  - rewrite (strip_exif_ok img Hw Hh). eexists. split; reflexivity.
  - destruct (negb _); eexists; split; reflexivity.
Qed.

(** The script up to the decoded and normalised image: the two
    directories are made, and what follows is the resizing and saving. *)
Lemma process_one_body_from_image cfg env src sz rel p_hi p_webp p_thumb img0 img :
  supported src = true ->
  st_size env src = Ok sz -> sz <> 0 ->
  relative_to src (SRC_DIR cfg) = Ok rel ->
  out_hi cfg rel = Ok p_hi -> out_webp cfg rel = Ok p_webp ->
  out_thumb cfg rel = Ok p_thumb ->
  mkdir env (parent p_hi) = None -> mkdir env (parent p_thumb) = None ->
  image_open env src = Ok img0 -> normalised cfg img0 = Ok img ->
  process_one_body cfg env src
  = bind (emit (MadeDir (parent p_hi))) (fun _ =>
    bind (emit (MadeDir (parent p_thumb))) (fun _ =>
      hi <- lift (resize_by_width img (MAX_WIDTH_HI cfg)) ;;
      save_jpeg env hi p_hi (JPEG_QUALITY cfg) ;;;
      thumb <- lift (resize_by_width img (THUMB_WIDTH cfg)) ;;
      save_jpeg env thumb p_thumb 70 ;;;
      (if MAKE_WEBP cfg then save_webp env hi p_webp (WEBP_QUALITY cfg) else ret tt) ;;;
      print (Done src p_hi (MAKE_WEBP cfg)))).
Proof.
  intros Hsup Hst Hsz Hrel Hhi Hwebp Hthumb Hm1 Hm2 Hopen Hnorm.
  unfold process_one_body. unfold supported in Hsup. rewrite Hsup. cbn [negb].
  rewrite Hst, bind_lift_ok.
  destruct (Z.eqb_spec sz 0); [contradiction|].
  rewrite Hrel, bind_lift_ok, Hhi, bind_lift_ok, Hwebp, bind_lift_ok,
    Hthumb, bind_lift_ok.
  unfold do_mkdir. rewrite Hm1, Hm2.
  rewrite Hopen, bind_lift_ok. rewrite Hnorm, bind_lift_ok. reflexivity.
Qed.

(** X11. A source so flat that its height times a cap is below its width
    loses the outputs from that cap on. When even the hi-res cap is too
    narrow for it, the two directories are made, nothing is written and
    the line printed is the library's refusal of a zero height. When it
    fits the hi-res cap but not the thumbnail width, the hi-res JPEG is
    written and stays, and neither thumbnail nor WebP follows. *)
Theorem too_flat_source cfg env src sz rel p_hi p_webp p_thumb img0 :
  supported src = true ->
  st_size env src = Ok sz -> sz <> 0 ->
  relative_to src (SRC_DIR cfg) = Ok rel ->
  out_hi cfg rel = Ok p_hi -> out_webp cfg rel = Ok p_webp ->
  out_thumb cfg rel = Ok p_thumb ->
  mkdir env (parent p_hi) = None -> mkdir env (parent p_thumb) = None ->
  image_open env src = Ok img0 ->
  0 < width img0 < 2 ^ 31 -> 0 <= height img0 ->
  (0 < MAX_WIDTH_HI cfg < width img0 ->
   height img0 * MAX_WIDTH_HI cfg < width img0 ->
   process_one cfg env src
   = ([MadeDir (parent p_hi); MadeDir (parent p_thumb);
       Printed (ErrorProcessing src (ValueError "height and width must be > 0"))],
      Ok tt))
  /\ (width img0 <= MAX_WIDTH_HI cfg ->
      0 < THUMB_WIDTH cfg < width img0 ->
      height img0 * THUMB_WIDTH cfg < width img0 ->
      forall img,
        normalised cfg img0 = Ok img ->
        save env img p_hi (jpeg_params (JPEG_QUALITY cfg)) = None ->
        process_one cfg env src
        = ([MadeDir (parent p_hi); MadeDir (parent p_thumb);
            Wrote p_hi (jpeg_params (JPEG_QUALITY cfg)) img;
            Printed (ErrorProcessing src (ValueError "height and width must be > 0"))],
           Ok tt)).
Proof.
  intros Hsup Hst Hsz Hrel Hhi Hwebp Hthumb Hm1 Hm2 Hopen Hw Hh.
  destruct (normalised_ok cfg img0 ltac:(lia) Hh) as (img & Hnorm & Hsize).
  assert (Hwi : width img = width img0) by (unfold width; now rewrite Hsize).
  assert (Hhi' : height img = height img0) by (unfold height; now rewrite Hsize).
  pose proof (process_one_body_from_image cfg env src sz rel p_hi p_webp p_thumb
                img0 img Hsup Hst Hsz Hrel Hhi Hwebp Hthumb Hm1 Hm2 Hopen Hnorm)
    as Hbody.
  split.
  - intros Hmax Hflat. unfold process_one. rewrite Hbody.
    rewrite (resize_by_width_too_flat img (MAX_WIDTH_HI cfg)) by lia.
    reflexivity.
  - intros Hfit Hth Hflat img' Hnorm' Hsave.
    rewrite Hnorm in Hnorm'. inversion Hnorm'; subst img'.
    unfold process_one. rewrite Hbody.
    rewrite (resize_by_width_narrow img (MAX_WIDTH_HI cfg)) by lia.
    rewrite (resize_by_width_too_flat img (THUMB_WIDTH cfg)) by lia.
    rewrite !bind_emit, bind_lift_ok. unfold save_jpeg, do_save. rewrite Hsave.
    reflexivity.
Qed.

Lemma too_flat_source_witness :
  process_one default_config strips_env (images ["line.png"]%string)
  = ([MadeDir (parent (rel_path ["images_optimized"; "line.jpg"]%string));
      MadeDir (parent (rel_path ["images_optimized"; "thumbs"; "line.jpg"]%string));
      Printed (ErrorProcessing (images ["line.png"]%string)
                 (ValueError "height and width must be > 0"))],
     Ok tt)
  /\ process_one default_config strips_env (images ["banner.png"]%string)
     = ([MadeDir (parent (rel_path ["images_optimized"; "banner.jpg"]%string));
         MadeDir (parent (rel_path ["images_optimized"; "thumbs"; "banner.jpg"]%string));
         Wrote (rel_path ["images_optimized"; "banner.jpg"]%string) (jpeg_params 85)
               banner_image;
         Printed (ErrorProcessing (images ["banner.png"]%string)
                    (ValueError "height and width must be > 0"))],
        Ok tt).
Proof.
  split.
  - apply (proj1 (too_flat_source default_config strips_env (images ["line.png"]%string)
                    4096 (rel_path ["line.png"]%string)
                    (rel_path ["images_optimized"; "line.jpg"]%string)
                    (rel_path ["images_optimized"; "line.webp"]%string)
                    (rel_path ["images_optimized"; "thumbs"; "line.jpg"]%string)
                    line_image
                    eq_refl eq_refl ltac:(discriminate) eq_refl eq_refl eq_refl eq_refl
                    eq_refl eq_refl eq_refl
                    ltac:(vm_compute; split; reflexivity)
                    ltac:(vm_compute; discriminate)));
      vm_compute; (reflexivity || (split; reflexivity)).
  - apply (proj2 (too_flat_source default_config strips_env (images ["banner.png"]%string)
                    4096 (rel_path ["banner.png"]%string)
                    (rel_path ["images_optimized"; "banner.jpg"]%string)
                    (rel_path ["images_optimized"; "banner.webp"]%string)
                    (rel_path ["images_optimized"; "thumbs"; "banner.jpg"]%string)
                    banner_image
                    eq_refl eq_refl ltac:(discriminate) eq_refl eq_refl eq_refl eq_refl
                    eq_refl eq_refl eq_refl
                    ltac:(vm_compute; split; reflexivity)
                    ltac:(vm_compute; discriminate)));
      vm_compute; (reflexivity || discriminate || (split; reflexivity)).
Defined.

(** X12. When the thumbnail width is not above the hi-res cap, the
    thumbnail written for a source is never wider than the hi-res image
    written for it before. *)
Theorem thumbnail_not_wider_than_hi cfg env src rel p params out :
  THUMB_WIDTH cfg <= MAX_WIDTH_HI cfg ->
  relative_to src (SRC_DIR cfg) = Ok rel ->
  out_thumb cfg rel = Ok p ->
  In (Wrote p params out) (fst (process_one cfg env src)) ->
  exists p_hi hi,
    out_hi cfg rel = Ok p_hi
    /\ In (Wrote p_hi (jpeg_params (JPEG_QUALITY cfg)) hi)
          (fst (process_one cfg env src))
    /\ width out <= width hi.
Proof.
  intros Hcaps Hrel Hp Hin.
  destruct (process_one_wrote _ _ _ _ _ _ Hin)
    as (rel' & p_hi & p_webp & p_thumb & img0 & img & hi
        & Hrel' & Hhi & Hwebp & Hthumb & _ & _ & Hres & Hinhi & Hcase).
  rewrite Hrel in Hrel'. inversion Hrel'; subst rel'; clear Hrel'.
  rewrite Hp in Hthumb. inversion Hthumb; subst p_thumb; clear Hthumb.
  pose proof (relative_to_anchor _ _ _ Hrel) as Hanch.
  assert (Hap1 : p_hi <> p) by (eapply thumb_path_apart; eauto).
  assert (Hap2 : p_webp <> p) by (eapply thumb_path_apart; eauto).
  exists p_hi, hi. split; [exact Hhi|]. split; [exact Hinhi|].
  destruct Hcase as [(Hpt & _)|[(_ & _ & Hres')|(Hpt & _)]]; try congruence.
  destruct (resize_by_width_le _ _ _ Hres) as (_ & Hs1 & Hw1).
  destruct (resize_by_width_le _ _ _ Hres') as (Hle2 & Hs2 & Hw2).
  destruct (Z.le_gt_cases (width img) (MAX_WIDTH_HI cfg)) as [H|H].
  - rewrite (Hs1 H).
    destruct (Z.le_gt_cases (width img) (THUMB_WIDTH cfg)) as [H'|H'].
    + rewrite (Hs2 H'). lia.
    + rewrite (Hw2 H'). lia.
  - rewrite (Hw1 H). lia.
Qed.

Lemma thumbnail_not_wider_than_hi_witness :
  exists p_hi hi,
    out_hi default_config (rel_path ["b"; "wide.jpg"]%string) = Ok p_hi
    /\ In (Wrote p_hi (jpeg_params (JPEG_QUALITY default_config)) hi)
          (fst (process_one default_config sample_env (images ["b"; "wide.jpg"]%string)))
    /\ width (mkImage RGB (400, 133) [] (Resampled LANCZOS (400, 133) (Samples 1)))
       <= width hi.
Proof.
  apply (thumbnail_not_wider_than_hi default_config sample_env
           (images ["b"; "wide.jpg"]%string) (rel_path ["b"; "wide.jpg"]%string)
           (rel_path ["images_optimized"; "thumbs"; "b"; "wide.jpg"]%string)
           (jpeg_params 70)).
  - vm_compute. discriminate.
  - reflexivity.
  - reflexivity.
  - vm_compute. repeat first [left; reflexivity | right].
Defined.

(** ** Failures before anything is decoded *)



(** ** Names of the output files *)

Lemma len_append (a b : string) : Str.len (a ++ b) = Str.len a + Str.len b.
Proof. unfold Str.len. rewrite append_length. lia. Qed.

Lemma rfind_lower_bound (s : string) (c : ascii) : -1 <= Str.rfind s c.
Proof.
  induction s as [|a s IH]; simpl; [lia|].
  destruct (Z.leb_spec 0 (Str.rfind s c)); [lia|].
  destruct (Ascii.eqb a c); lia.
Qed.

Lemma rfind_append (a b : string) (c : ascii) :
  0 <= Str.rfind b c -> Str.rfind (a ++ b) c = Str.len a + Str.rfind b c.
Proof.
  intros Hb. induction a as [|x a IH]; cbn [Str.rfind append].
  - unfold Str.len. cbn [String.length]. lia.
  - rewrite IH. unfold Str.len in *. cbn [String.length].
    destruct (Z.leb_spec 0 (Z.of_nat (String.length a) + Str.rfind b c)); lia.
Qed.

Lemma drop_append (a b : string) : Str.drop (String.length a) (a ++ b) = b.
Proof. induction a; simpl; auto. Qed.

(** The suffix of a name made of a non-empty stem and an extension that
    starts with its only dot. *)
Lemma suffix_of_stem_ext (d : string) (xs : list string) (a ext : string) :
  a <> EmptyString ->
  Str.rfind ext "."%char = 0 -> 2 <= Str.len ext ->
  suffix (mkPath d (xs ++ [(a ++ ext)%string])) = ext.
Proof.
  intros Ha Hdot Hlen. unfold suffix, name. simpl parts. rewrite last_last.
  rewrite rfind_append by lia. rewrite Hdot, Z.add_0_r, len_append.
  assert (Hpos : 0 < Str.len a).
  { unfold Str.len. destruct a; [contradiction|]. cbn [String.length]. lia. }
  destruct (Z.ltb_spec 0 (Str.len a)); [|lia].
  destruct (Z.ltb_spec (Str.len a) (Str.len a + Str.len ext - 1)); [|lia].
  simpl andb. cbv iota. unfold Str.slice_from.
  rewrite clamp_inside by (rewrite len_append; lia).
  unfold Str.len. rewrite Nat2Z.id. apply drop_append.
Qed.

Lemma take_nonempty (n : nat) (s : string) :
  (0 < n)%nat -> s <> EmptyString -> Str.take n s <> EmptyString.
Proof. destruct n; [lia|]. destruct s; [contradiction|]. discriminate. Qed.

Lemma stem_nonempty (p : Path) :
  Str.is_empty (name p) = false -> stem p <> EmptyString.
Proof.
  intros Hn. assert (Hne : name p <> EmptyString).
  { intros H. rewrite H in Hn. discriminate. }
  unfold stem.
  destruct ((0 <? Str.rfind (name p) ".") && (Str.rfind (name p) "." <? Str.len (name p) - 1))
    eqn:Hc; [|exact Hne].
  apply andb_prop in Hc. destruct Hc as [H0 H1].
  apply Z.ltb_lt in H0. apply Z.ltb_lt in H1.
  unfold Str.slice_to. rewrite clamp_inside by lia.
  apply take_nonempty; [lia|exact Hne].
Qed.

Lemma output_path_named cfg kind (rel p : Path) :
  anchor rel = ""%string ->
  output_path cfg kind rel = Ok p ->
  suffix p = extension_of kind.
Proof.
  intros Hrel H.
  assert (Hn : Str.is_empty (name rel) = false).
  { destruct kind; simpl in H; unfold out_hi, out_webp, out_thumb, with_suffix in H;
      simpl in H; destruct (Str.is_empty (name rel)); (discriminate || reflexivity). }
  apply output_path_parts in H; [|assumption]. subst p.
  rewrite app_assoc. apply suffix_of_stem_ext.
  - now apply stem_nonempty.
  - destruct kind; reflexivity.
  - destruct kind; vm_compute; discriminate.
Qed.

(** X14. The name of every file written tells its encoding: a JPEG
    write goes to a path whose suffix is [.jpg], a WebP write to one
    whose suffix is [.webp], whatever the extension of the source was.
    So every JPEG the script writes has itself a supported extension,
    and no WebP has. *)
Theorem extension_matches_format cfg env src p params out :
  In (Wrote p params out) (fst (process_one cfg env src)) ->
  suffix p = match format params with JPEG => ".jpg" | WEBP => ".webp" end%string
  /\ supported p = match format params with JPEG => true | WEBP => false end.
Proof.
  intros Hin.
  destruct (process_one_wrote _ _ _ _ _ _ Hin)
    as (rel & p_hi & p_webp & p_thumb & img0 & img & hi
        & Hrel & Hhi & Hwebp & Hthumb & _ & _ & _ & _ & Hcase).
  pose proof (relative_to_anchor _ _ _ Hrel) as Ha.
  assert (Hs : suffix p
               = match format params with JPEG => ".jpg" | WEBP => ".webp" end%string).
  { destruct Hcase as [(-> & -> & _)|[(-> & -> & _)|(-> & -> & _)]]; simpl.
    - apply (output_path_named cfg HiRes rel); auto.
    - apply (output_path_named cfg Thumbnail rel); auto.
    - apply (output_path_named cfg AltFormat rel); auto. }
  split; [exact Hs|]. unfold supported. rewrite Hs.
  destruct (format params); reflexivity.
Qed.

Lemma extension_matches_format_witness :
  suffix (rel_path ["images_optimized"; "a"; "cat.jpg"]%string)
  = match format (jpeg_params 85) with JPEG => ".jpg" | WEBP => ".webp" end%string
  /\ supported (rel_path ["images_optimized"; "a"; "cat.jpg"]%string)
     = match format (jpeg_params 85) with JPEG => true | WEBP => false end.
Proof.
  apply (extension_matches_format default_config sample_env
           (images ["a"; "cat.png"]%string) _ _
           (mkImage RGB (1200, 800) [] (Samples 0))).
  vm_compute. repeat first [left; reflexivity | right].
Defined.

(** ** Metadata stripping and the pixels *)

Lemma resize_by_width_same_pixels (a b ra : Image) (t : Z) :
  same_pixels a b ->
  resize_by_width a t = Ok ra ->
  exists rb, resize_by_width b t = Ok rb /\ same_pixels ra rb.
Proof.
  intros (Hm & Hs & Hp) Ha.
  assert (Hw : width b = width a) by (unfold width; now rewrite Hs).
  assert (Hh : height b = height a) by (unfold height; now rewrite Hs).
  destruct (Z.le_gt_cases (width a) t) as [Hle|Hgt].
  - rewrite (resize_by_width_narrow _ _ Hle) in Ha. inversion Ha; subst ra.
    exists b. split; [apply resize_by_width_narrow; lia|]. repeat split; auto.
  - destruct (resize_by_width_wide _ _ _ Hgt Ha) as (nh & Hnh & Ht1 & Hn1 & ->).
    exists (mkImage (mode b) (t, nh) (info b) (Resampled LANCZOS (t, nh) (px b))).
    split.
    + unfold resize_by_width, width, height in *.
      destruct (size b) as [w h] eqn:Hsz. simpl in *.
      destruct (Z.leb_spec w t); [lia|].
      rewrite Hw, Hh, Hnh. cbn [rbind]. unfold resize, width, height.
      rewrite Hsz. simpl.
      destruct (Z.eqb_spec t w); [lia|]. simpl.
      destruct (Z.ltb_spec t 1); [lia|].
      destruct (Z.ltb_spec nh 1); [lia|]. reflexivity.
    + repeat split; simpl; congruence.
Qed.

(** X15. Stripping the metadata changes nothing else: for every decoded
    image the normalised image has the same mode, size and pixel values
    whether [STRIP_EXIF] is on or off; and whatever the resize then
    gives for the one it gives for the other, with the same mode, size
    and pixel values. Stripping an image twice is stripping it once. *)
Theorem stripping_keeps_the_pixels cfg (img0 : Image) :
  0 <= width img0 -> 0 <= height img0 ->
  exists a b,
    normalised (with_strip_exif cfg true) img0 = Ok a
    /\ normalised (with_strip_exif cfg false) img0 = Ok b
    /\ same_pixels a b
    /\ info a = []
    /\ strip_exif a = Ok a
    /\ (forall t ra, resize_by_width a t = Ok ra ->
                     exists rb, resize_by_width b t = Ok rb /\ same_pixels ra rb).
Proof.
  intros Hw Hh. unfold normalised. simpl STRIP_EXIF. cbv iota.
  rewrite (strip_exif_ok img0 Hw Hh).
  set (a := mkImage (if Mode_eqb (mode img0) RGBA then RGBA else RGB) (size img0) []
                    (if rgb_or_rgba (mode img0) then px img0
                     else Converted RGB (px img0))).
  exists a, (if negb (rgb_or_rgba (mode img0)) then convert img0 RGB else img0).
  assert (Hsame : same_pixels a
            (if negb (rgb_or_rgba (mode img0)) then convert img0 RGB else img0)).
  { unfold same_pixels, a.
    destruct (mode img0) eqn:Hm; simpl; rewrite ?Hm; auto. }
  split; [reflexivity|]. split; [destruct (negb _); reflexivity|].
  split; [exact Hsame|]. split; [reflexivity|]. split.
  - rewrite (strip_exif_ok a) by exact Hw || exact Hh. unfold a; simpl.
    destruct (mode img0); reflexivity.
  - intros t ra Hra. eapply resize_by_width_same_pixels; eauto.
Qed.

Lemma stripping_keeps_the_pixels_witness :
  exists a b,
    normalised (with_strip_exif default_config true) cat_image = Ok a
    /\ normalised (with_strip_exif default_config false) cat_image = Ok b
    /\ same_pixels a b
    /\ info a = []
    /\ strip_exif a = Ok a
    /\ (forall t ra, resize_by_width a t = Ok ra ->
                     exists rb, resize_by_width b t = Ok rb /\ same_pixels ra rb).
Proof.
  apply (stripping_keeps_the_pixels default_config cat_image);
    vm_compute; discriminate.
Defined.

(** ** Small sources *)

(** X16. A source that is not wider than either cap is never resampled:
    every image written for it -- hi-res, thumbnail and WebP -- is the
    normalised decoded image itself. *)
Theorem small_sources_are_not_resampled cfg env src img0 p params out :
  image_open env src = Ok img0 ->
  width img0 <= MAX_WIDTH_HI cfg -> width img0 <= THUMB_WIDTH cfg ->
  In (Wrote p params out) (fst (process_one cfg env src)) ->
  normalised cfg img0 = Ok out /\ size out = size img0.
Proof.
  intros Hopen Hmax Hth Hin.
  destruct (process_one_wrote _ _ _ _ _ _ Hin)
    as (rel & p_hi & p_webp & p_thumb & img0' & img & hi
        & _ & _ & _ & _ & Hopen' & Hnorm & Hres & _ & Hcase).
  rewrite Hopen in Hopen'. inversion Hopen'; subst img0'; clear Hopen'.
  pose proof (normalised_size _ _ _ Hnorm) as Hsz.
  assert (Hw : width img = width img0) by (unfold width; now rewrite Hsz).
  rewrite (resize_by_width_narrow img (MAX_WIDTH_HI cfg)) in Hres by lia.
  inversion Hres; subst hi.
  assert (Hout : out = img).
  { destruct Hcase as [(_ & _ & ->)|[(_ & _ & H)|(_ & _ & -> & _)]]; auto.
    rewrite (resize_by_width_narrow img (THUMB_WIDTH cfg)) in H by lia.
    now inversion H. }
  subst out. auto.
Qed.

Lemma small_sources_are_not_resampled_witness :
  normalised default_config logo_image
  = Ok (mkImage RGB (64, 64) [] (Converted RGB (Samples 2)))
  /\ size (mkImage RGB (64, 64) [] (Converted RGB (Samples 2))) = size logo_image.
Proof.
  apply (small_sources_are_not_resampled default_config sample_env
           (images ["logo.png"]%string) logo_image
           (rel_path ["images_optimized"; "thumbs"; "logo.jpg"]%string)
           (jpeg_params 70)).
  - reflexivity.
  - vm_compute. discriminate.
  - vm_compute. discriminate.
  - vm_compute. repeat first [left; reflexivity | right].
Defined.

(** ** When the whole set is written *)

(** X17. The converse of the success line: for a non-empty file with a
    supported extension under the input root, when the directories can
    be made, the image is decoded, both resizes return and the saves
    succeed, the whole output set is written in order and the success
    line closes the log. *)
Theorem complete_set_when_nothing_fails
        cfg env src sz rel p_hi p_webp p_thumb img0 img hi thumb :
  supported src = true ->
  st_size env src = Ok sz -> sz <> 0 ->
  relative_to src (SRC_DIR cfg) = Ok rel ->
  out_hi cfg rel = Ok p_hi -> out_webp cfg rel = Ok p_webp ->
  out_thumb cfg rel = Ok p_thumb ->
  mkdir env (parent p_hi) = None -> mkdir env (parent p_thumb) = None ->
  image_open env src = Ok img0 -> normalised cfg img0 = Ok img ->
  resize_by_width img (MAX_WIDTH_HI cfg) = Ok hi ->
  resize_by_width img (THUMB_WIDTH cfg) = Ok thumb ->
  save env hi p_hi (jpeg_params (JPEG_QUALITY cfg)) = None ->
  save env thumb p_thumb (jpeg_params 70) = None ->
  (MAKE_WEBP cfg = true ->
   save env hi p_webp (webp_params (WEBP_QUALITY cfg)) = None) ->
  process_one cfg env src
  = ([MadeDir (parent p_hi); MadeDir (parent p_thumb);
      Wrote p_hi (jpeg_params (JPEG_QUALITY cfg)) hi;
      Wrote p_thumb (jpeg_params 70) thumb]
     ++ (if MAKE_WEBP cfg
         then [Wrote p_webp (webp_params (WEBP_QUALITY cfg)) hi]
         else [])
     ++ [Printed (Done src p_hi (MAKE_WEBP cfg))],
     Ok tt).
Proof.
  intros Hsup Hst Hsz Hrel Hhi Hwebp Hthumb Hm1 Hm2 Hopen Hnorm
         Hrhi Hrth Hs1 Hs2 Hs3.
  unfold process_one.
  rewrite (process_one_body_from_image cfg env src sz rel p_hi p_webp p_thumb
             img0 img Hsup Hst Hsz Hrel Hhi Hwebp Hthumb Hm1 Hm2 Hopen Hnorm).
  rewrite Hrhi, Hrth. rewrite !bind_emit, bind_lift_ok.
  unfold save_jpeg, save_webp, do_save. rewrite Hs1. rewrite bind_emit, bind_lift_ok.
  rewrite Hs2. rewrite bind_emit.
  destruct (MAKE_WEBP cfg).
  - rewrite (Hs3 eq_refl). reflexivity.
  - reflexivity.
Qed.

Lemma complete_set_when_nothing_fails_witness :
  process_one default_config sample_env (images ["b"; "wide.jpg"]%string)
  = ([MadeDir (parent (rel_path ["images_optimized"; "b"; "wide.jpg"]%string));
      MadeDir (parent (rel_path ["images_optimized"; "thumbs"; "b"; "wide.jpg"]%string));
      Wrote (rel_path ["images_optimized"; "b"; "wide.jpg"]%string)
            (jpeg_params (JPEG_QUALITY default_config))
            (mkImage RGB (1600, 533) [] (Resampled LANCZOS (1600, 533) (Samples 1)));
      Wrote (rel_path ["images_optimized"; "thumbs"; "b"; "wide.jpg"]%string)
            (jpeg_params 70)
            (mkImage RGB (400, 133) [] (Resampled LANCZOS (400, 133) (Samples 1)))]
     ++ (if MAKE_WEBP default_config
         then [Wrote (rel_path ["images_optimized"; "b"; "wide.webp"]%string)
                     (webp_params (WEBP_QUALITY default_config))
                     (mkImage RGB (1600, 533) []
                              (Resampled LANCZOS (1600, 533) (Samples 1)))]
         else [])
     ++ [Printed (Done (images ["b"; "wide.jpg"]%string)
                       (rel_path ["images_optimized"; "b"; "wide.jpg"]%string)
                       (MAKE_WEBP default_config))],
     Ok tt).
Proof.
  apply (complete_set_when_nothing_fails default_config sample_env
           (images ["b"; "wide.jpg"]%string) 4096 (rel_path ["b"; "wide.jpg"]%string)
           _ _ _ wide_image (mkImage RGB (3000, 1000) [] (Samples 1)));
    (reflexivity || discriminate).
Defined.
